(** * Inbenne, Phase 1: the event service (src/Phase-1/main.py)

    A shallow embedding of the FastAPI handlers [get_event], [create_event],
    [delete_event] and [health_check], over an explicit model of the two
    services they talk to: the Redis database behind [redis_client] and the
    MongoDB collection behind [events_collection].

    The handlers are written in a state-and-exception monad over a [World]
    that holds the cache, the collection, the outcome the environment has
    in store for the coming network calls, and the log of the calls made.
    A network call either goes through or raises an [Exception]; writes to
    standard output ([print]) are not part of the model. The static list
    behind GET /api/events and the functions of seed_db.py that write to the
    collection follow the handlers. *)

From Stdlib Require Import ZArith NArith Ascii String List Lia.
From Stdlib.Strings Require Import Byte.
From stdpp Require Import base option list strings gmap fin_maps.

Local Open Scope string_scope.
Local Open Scope list_scope.
Local Open Scope Z_scope.

(** ** Python strings *)

(** [f"{a}{b}"] and [a + b] on [str] are [a +:+ b]. *)

(** Truth value of a [str]: only the empty string is falsy. *)
Definition str_truthy (s : string) : bool :=
  match s with
  | EmptyString => false
  | String _ _ => true
  end.

(** ** bson.ObjectId

    The driver's identifier type. An [ObjectId] is its raw bytes
    ([ObjectId.binary]); [str] of it is the lower-case hexadecimal text, two
    digits a byte, and [ObjectId(s)] reads that text back, in either case of
    the letters, from a string of exactly 24 characters. White space among
    the 24 is skipped as [bytes.fromhex] skips it, so that an identifier read
    from such a string has fewer than twelve bytes. *)

Definition ObjectId := list byte.

#[global] Instance byte_eq_decision : EqDecision byte := Byte.byte_eq_dec.

Definition hex_digit (n : N) : ascii :=
  nth (N.to_nat n) (list_ascii_of_string "0123456789abcdef") "0"%char.

(** The value of a hexadecimal digit, in either case of the letters. *)
Definition hex_value (c : ascii) : option N :=
  let n := N_of_ascii c in
  if ((48 <=? n) && (n <=? 57))%N then Some (n - 48)%N
  else if ((97 <=? n) && (n <=? 102))%N then Some (n - 87)%N
  else if ((65 <=? n) && (n <=? 70))%N then Some (n - 55)%N
  else None.

(** [bytes.hex()]. *)
Fixpoint hex (bs : list byte) : string :=
  match bs with
  | [] => EmptyString
  | b :: bs' =>
      String (hex_digit (Byte.to_N b / 16))
        (String (hex_digit (Byte.to_N b mod 16)) (hex bs'))
  end.

(** ASCII white space: the space and the characters 9 to 13. *)
Definition is_space (c : ascii) : bool :=
  let n := N_of_ascii c in
  ((n =? 32) || ((9 <=? n) && (n <=? 13)))%N.

(** [bytes.fromhex(s)]; [None] is its [ValueError]. White space is skipped
    in front of a pair of digits, not between the two digits of a pair. *)
Fixpoint fromhex (s : string) : option (list byte) :=
  match s with
  | EmptyString => Some []
  | String c1 s1 =>
      if is_space c1 then fromhex s1
      else
        match s1 with
        | EmptyString => None
        | String c2 s' =>
            match hex_value c1, hex_value c2 with
            | Some h, Some l =>
                match Byte.of_N (16 * h + l), fromhex s' with
                | Some b, Some bs => Some (b :: bs)
                | _, _ => None
                end
            | _, _ => None
            end
        end
  end.

(** [str(oid)]. *)
Definition oid_str (o : ObjectId) : string := hex o.

(** [ObjectId(s)] for a [str] argument; [None] is the [InvalidId] it raises. *)
Definition ObjectId_parse (s : string) : option ObjectId :=
  if (String.length s =? 24)%nat then fromhex s else None.

(** [ObjectId.is_valid(s)]: false on a falsy argument, otherwise whether the
    constructor accepts it. *)
Definition ObjectId_is_valid (s : string) : bool :=
  if str_truthy s then
    match ObjectId_parse s with Some _ => true | None => false end
  else false.

(** [ObjectId()]: a fresh identifier of twelve bytes. The driver derives it
    from the time, a per-process random value and a counter; the model keeps
    one counter, written big-endian over the twelve bytes. *)
Definition byte_at (n : N) (i : N) : byte :=
  match Byte.of_N ((n / 256 ^ i) mod 256) with
  | Some b => b
  | None => Byte.x00
  end.

Definition oid_of_N (n : N) : ObjectId :=
  map (byte_at n) [11; 10; 9; 8; 7; 6; 5; 4; 3; 2; 1; 0]%N.

(** ** Values and dictionaries

    The values carried by the dictionaries of this program: the documents of
    the collection, the query filters, and the dictionaries that go through
    [json]. *)

Inductive value :=
| VNone
| VStr (s : string)
| VOid (o : ObjectId).

#[global] Instance value_eq_decision : EqDecision value.
Proof. solve_decision. Defined.

Abbreviation dict := (gmap string value).

(** [str(v)]. *)
Definition py_str (v : value) : string :=
  match v with
  | VNone => "None"
  | VStr s => s
  | VOid o => oid_str o
  end.

(** Truth value of an optional dictionary ([None] and [{}] are falsy). *)
Definition dict_truthy (o : option dict) : bool :=
  match o with
  | None => false
  | Some d => negb (bool_decide (d = ∅))
  end.

(** ** The pydantic models *)

Record Event := mkEvent {
  id : string;
  title : string;
  description : string;
  date : string;
  location : string;
  category : option string;
  organizer : option string }.

Record EventCreate := mkEventCreate {
  c_title : string;
  c_description : string;
  c_date : string;
  c_location : string;
  c_category : option string;
  c_organizer : option string }.

#[global] Instance Event_eq_decision : EqDecision Event.
Proof. solve_decision. Defined.

(** A required [str] field: present and a string. *)
Definition field_str (d : dict) (k : string) : option string :=
  match d !! k with
  | Some (VStr s) => Some s
  | _ => None
  end.

(** An [Optional[str]] field with default [None]. *)
Definition field_opt_str (d : dict) (k : string) : option (option string) :=
  match d !! k with
  | None => Some None
  | Some VNone => Some None
  | Some (VStr s) => Some (Some s)
  | Some (VOid _) => None
  end.

(** The constructor [Event], applied to the entries of [d] as keyword
    arguments: validation of each field; keys that are not fields of the
    model are ignored. [None] is the [ValidationError]. *)
Definition Event_new (d : dict) : option Event :=
  i ← field_str d "id";
  t ← field_str d "title";
  de ← field_str d "description";
  da ← field_str d "date";
  l ← field_str d "location";
  c ← field_opt_str d "category";
  o ← field_opt_str d "organizer";
  Some (mkEvent i t de da l c o).

Definition opt_value (o : option string) : value :=
  match o with
  | Some s => VStr s
  | None => VNone
  end.

(** [event.model_dump()] for [Event] and for [EventCreate]. *)
Definition model_dump (e : Event) : dict :=
  <["id" := VStr (id e)]>
  (<["title" := VStr (title e)]>
  (<["description" := VStr (description e)]>
  (<["date" := VStr (date e)]>
  (<["location" := VStr (location e)]>
  (<["category" := opt_value (category e)]>
  (<["organizer" := opt_value (organizer e)]> ∅)))))).

Definition create_dump (e : EventCreate) : dict :=
  <["title" := VStr (c_title e)]>
  (<["description" := VStr (c_description e)]>
  (<["date" := VStr (c_date e)]>
  (<["location" := VStr (c_location e)]>
  (<["category" := opt_value (c_category e)]>
  (<["organizer" := opt_value (c_organizer e)]> ∅))))).

Example hex_demo : oid_str (oid_of_N 255) = "0000000000000000000000ff".
Proof. reflexivity. Qed.

Example parse_demo :
  ObjectId_parse "0000000000000000000000FF" = Some (oid_of_N 255).
Proof. reflexivity. Qed.

(** White space in front of a pair of digits and at the end is skipped;
    between the two digits of a pair it is refused. *)
Example parse_space_demo :
  ObjectId_parse " 00000000000000000000ff " = Some (tail (oid_of_N 255))
  ∧ ObjectId_parse "000000000000000000000f f" = None
  ∧ ObjectId_is_valid "0000000000000000000000f " = false.
Proof. repeat split; reflexivity. Qed.

Example event_demo :
  Event_new (model_dump (mkEvent "1" "t" "d" "x" "l" None (Some "o")))
  = Some (mkEvent "1" "t" "d" "x" "l" None (Some "o")).
Proof. vm_compute. reflexivity. Qed.

(** ** The json module

    [json.dumps] and [json.loads] are the standard library's. The handlers
    rely on two facts about them, kept here as the interface: a dictionary
    of strings and [None]s is read back as it was written, and the text
    written is never the empty string. [json_loads] gives [None] where
    [json.loads] raises; what it makes of a text that is json but not an
    object of strings and nulls (which the handlers never write) is left to
    the instance. A concrete codec is given further down. *)

Definition jsonable (d : dict) : Prop :=
  map_Forall (λ _ v, match v with VOid _ => False | _ => True end) d.

Class Json := {
  json_dumps : dict → string;
  json_loads : string → option dict;
  json_loads_dumps : ∀ d, jsonable d → json_loads (json_dumps d) = Some d;
  json_dumps_truthy : ∀ d, str_truthy (json_dumps d) = true }.

(** ** Exceptions *)

Inductive exn :=
| HTTPException (status_code : Z) (detail : string)
| ServiceError (msg : string)      (* raised by a network call of a client *)
| InvalidId (oid : string)         (* bson.errors.InvalidId *)
| DuplicateKeyError                (* pymongo.errors.DuplicateKeyError *)
| JSONDecodeError                  (* json.JSONDecodeError *)
| ValidationError.                 (* pydantic.ValidationError *)

(** [str(e)], used by [health_check] on what a probe raised. Only the text
    of a [ServiceError] is the environment's; the other classes carry their
    library's text, for which a placeholder stands. *)
Definition exn_str (e : exn) : string :=
  match e with
  | HTTPException c d => d
  | ServiceError msg => msg
  | InvalidId s => s +:+ " is not a valid ObjectId"
  | DuplicateKeyError => "duplicate key error"
  | JSONDecodeError => "invalid JSON"
  | ValidationError => "validation error"
  end.

(** ** The world: cache, collection, environment *)

(** A network call of one of the two clients, as logged. *)
Inductive Call :=
| RedisGet (key : string)
| RedisSetex (key : string) (ttl : Z) (val : string)
| RedisDelete (key : string)
| RedisPing
| FindOne (filter : dict)
| InsertOne (doc : dict)
| DeleteOne (filter : dict)
| MongoPing.

#[global] Instance Call_eq_decision : EqDecision Call.
Proof. solve_decision. Defined.

Definition is_store_call (c : Call) : bool :=
  match c with
  | FindOne _ | InsertOne _ | DeleteOne _ | MongoPing => true
  | _ => false
  end.

Record World := mkWorld {
  (** Redis database 0: key to value and seconds left to live. *)
  redis : gmap string (string * Z);
  (** [db.events], in natural order. *)
  events : list dict;
  (** What the environment answers to the coming network calls, in order:
      [Some msg] makes the call raise, [None] lets it through, and so does
      the end of the list. *)
  outcomes : list (option string);
  (** [datetime.utcnow().isoformat()] at this moment. *)
  utcnow : string;
  (** State of the [ObjectId] generator. *)
  oid_counter : N;
  (** The network calls made so far, oldest first. *)
  calls : list Call }.

Definition set_redis (f : gmap string (string * Z) → gmap string (string * Z))
    (w : World) : World :=
  mkWorld (f (redis w)) (events w) (outcomes w) (utcnow w) (oid_counter w) (calls w).

Definition set_events (f : list dict → list dict) (w : World) : World :=
  mkWorld (redis w) (f (events w)) (outcomes w) (utcnow w) (oid_counter w) (calls w).

(** Time passing: every entry of the cache loses [dt] seconds and is gone
    once none is left. *)
Definition elapse (dt : Z) (w : World) : World :=
  set_redis (λ m, filter (λ kv, (0 <? snd (snd kv)) = true)
                    ((λ e, (fst e, snd e - dt)) <$> m)) w.

(** ** The monad of the handlers *)

Inductive Result (A : Type) :=
| Ok (a : A)
| Raise (e : exn).
Arguments Ok {A} a.
Arguments Raise {A} e.

Definition M (A : Type) : Type := World → Result A * World.

Definition ret {A} (a : A) : M A := λ w, (Ok a, w).

Definition raise {A} (e : exn) : M A := λ w, (Raise e, w).

Definition bind {A B} (m : M A) (k : A → M B) : M B :=
  λ w, match m w with
       | (Ok a, w') => k a w'
       | (Raise e, w') => (Raise e, w')
       end.

Notation "'do' x <- m ; k" := (bind m (λ x, k))
  (at level 10, x name, m at level 100, k at level 200).
Notation "'do' ' p <- m ; k" := (bind m (λ x, match x with p => k end))
  (at level 10, p pattern, m at level 100, k at level 200).

(** [try: body / except Exception as e: handler(e)]. Every [exn] above is a
    subclass of [Exception]. *)
Definition try_except {A} (body : M A) (handler : exn → M A) : M A :=
  λ w, match body w with
       | (Ok a, w') => (Ok a, w')
       | (Raise e, w') => handler e w'
       end.

Definition gets {A} (f : World → A) : M A := λ w, (Ok (f w), w).

Definition modify (f : World → World) : M unit := λ w, (Ok tt, f w).

(** A network call: it is logged, the environment's next outcome is
    consumed, and the call raises if that outcome says so. *)
Definition call (c : Call) : M unit :=
  λ w,
    let log := calls w ++ [c] in
    match outcomes w with
    | Some msg :: rest =>
        (Raise (ServiceError msg),
         mkWorld (redis w) (events w) rest (utcnow w) (oid_counter w) log)
    | None :: rest =>
        (Ok tt, mkWorld (redis w) (events w) rest (utcnow w) (oid_counter w) log)
    | [] =>
        (Ok tt, mkWorld (redis w) (events w) [] (utcnow w) (oid_counter w) log)
    end.

(** *** redis_client *)

Definition redis_get (key : string) : M (option string) :=
  do _ <- call (RedisGet key);
  gets (λ w, fst <$> redis w !! key).

Definition redis_setex (key : string) (ttl : Z) (val : string) : M unit :=
  do _ <- call (RedisSetex key ttl val);
  modify (set_redis (insert key (val, ttl))).

Definition redis_delete (key : string) : M unit :=
  do _ <- call (RedisDelete key);
  modify (set_redis (delete key)).

Definition redis_ping : M unit := call RedisPing.

(** *** events_collection *)

(** A document matches an equality filter when it carries every field of
    the filter with the filter's value. *)
Definition matches (filter : dict) (d : dict) : bool :=
  map_fold (λ k v acc, acc && bool_decide (d !! k = Some v)) true filter.

Fixpoint remove_first (p : dict → bool) (l : list dict) : list dict :=
  match l with
  | [] => []
  | d :: l' => if p d then l' else d :: remove_first p l'
  end.

Definition find_one (filter : dict) : M (option dict) :=
  do _ <- call (FindOne filter);
  gets (λ w, List.find (matches filter) (events w)).

(** [delete_one]: removes the first matching document; the result is
    [deleted_count]. *)
Definition delete_one (filter : dict) : M Z :=
  do _ <- call (DeleteOne filter);
  do n <- gets (λ w, if existsb (matches filter) (events w) then 1 else 0);
  do _ <- modify (set_events (remove_first (matches filter)));
  ret n.

(** [insert_one]: a document without ["_id"] is given a fresh [ObjectId],
    in place; the result is [inserted_id] and the document as it now is.
    The collection refuses a second document with the same ["_id"]. *)
Definition insert_one (doc : dict) : M (value * dict) :=
  do _ <- call (InsertOne doc);
  do '(oid, doc) <- match doc !! "_id" with
                 | Some v => ret (v, doc)
                 | None =>
                     do n <- gets oid_counter;
                     do _ <- modify (λ w, mkWorld (redis w) (events w) (outcomes w)
                                       (utcnow w) (oid_counter w + 1)%N (calls w));
                     ret (VOid (oid_of_N n), <["_id" := VOid (oid_of_N n)]> doc)
                 end;
  do taken <- gets (λ w, existsb (matches {["_id" := oid]}) (events w));
  if taken : bool then raise DuplicateKeyError
  else
    do _ <- modify (set_events (λ l, l ++ [doc]));
    ret (oid, doc).

Definition mongo_ping : M unit := call MongoPing.

(** *** Constructors that raise *)

(** [ObjectId(s)]. *)
Definition ObjectId_new (s : string) : M ObjectId :=
  match ObjectId_parse s with
  | Some o => ret o
  | None => raise (InvalidId s)
  end.

(** The constructor [Event] on keyword arguments. *)
Definition Event_init (d : dict) : M Event :=
  match Event_new d with
  | Some e => ret e
  | None => raise ValidationError
  end.

(** ** The handlers of main.py *)

Definition CACHE_TTL : Z := 3600.

Section Handlers.
Context `{Json}.

(** Line 115: [json.loads(cached_event)], then the constructor [Event] on
    the entries read. *)
Definition Event_of_json (cached_event : string) : M Event :=
  match json_loads cached_event with
  | Some d => Event_init d
  | None => raise JSONDecodeError
  end.

(** Lines 120-127: the lookup by [ObjectId], inside its [try]. The result is
    the value of [event_data] after the block. *)
Definition native_attempt (event_id : string) : M (option dict) :=
  if ObjectId_is_valid event_id then
    do oid <- ObjectId_new event_id;
    find_one {["_id" := VOid oid]}
  else ret None.

Definition native_lookup (event_id : string) : M (option dict) :=
  try_except (native_attempt event_id) (λ _, ret None).

(** Lines 130-131: the lookup by the string field, when [event_data] is
    falsy. *)
Definition string_fallback (event_id : string) (event_data : option dict)
    : M (option dict) :=
  if negb (dict_truthy event_data) then find_one {["id" := VStr event_id]}
  else ret event_data.

(** Lines 120-131: the two lookups in the collection. *)
Definition store_lookup (event_id : string) : M (option dict) :=
  do event_data <- native_lookup event_id;
  string_fallback event_id event_data.

(** Lines 137-138. *)
Definition normalize (event_data : dict) : dict :=
  match event_data !! "_id" with
  | Some v => <["id" := VStr (py_str v)]> (delete "_id" event_data)
  | None => event_data
  end.

Definition not_found (event_id : string) : exn :=
  HTTPException 404 ("Event with id " +:+ event_id +:+ " not found").

Definition cache_key_of (event_id : string) : string := "event:" +:+ event_id.

(** Lines 133-149: from the record found, if any, to the answer. *)
Definition answer_from (event_id : string) (event_data : option dict) : M Event :=
  if negb (dict_truthy event_data) then raise (not_found event_id)
  else
    match event_data with
    | None => raise (not_found event_id)
    | Some event_data =>
        let event_data := normalize event_data in
        do event <- Event_init event_data;
        do _ <- redis_setex (cache_key_of event_id) CACHE_TTL
                  (json_dumps (model_dump event));
        ret event
    end.

(** Lines 117-149: what [get_event] does when the cache has nothing. *)
Definition get_event_miss (event_id : string) : M Event :=
  do event_data <- store_lookup event_id;
  answer_from event_id event_data.

(** GET /api/events/{event_id} *)
Definition get_event (event_id : string) : M Event :=
  let cache_key := cache_key_of event_id in
  do cached_event <- redis_get cache_key;
  match cached_event with
  | Some text =>
      if str_truthy text then Event_of_json text
      else get_event_miss event_id
  | None => get_event_miss event_id
  end.

(** POST /api/events *)
Definition create_event (event : EventCreate) : M Event :=
  let event_dict := create_dump event in
  do now <- gets utcnow;
  let event_dict := <["created_at" := VStr now]> event_dict in
  do '(inserted_id, event_dict) <- insert_one event_dict;
  let event_dict := <["id" := VStr (py_str inserted_id)]> event_dict in
  Event_init event_dict.

(** Lines 176-179: the deletion from the collection, with its [except]. *)
Definition delete_from_store (event_id : string) : M Z :=
  try_except
    (do oid <- ObjectId_new event_id;
     delete_one {["_id" := VOid oid]})
    (λ _, delete_one {["id" := VStr event_id]}).

(** DELETE /api/events/{event_id} *)
Definition delete_event (event_id : string) : M dict :=
  let cache_key := cache_key_of event_id in
  do _ <- redis_delete cache_key;
  do deleted_count <- delete_from_store event_id;
  if deleted_count =? 0 then raise (not_found event_id)
  else ret {["message" := VStr ("Event " +:+ event_id +:+ " deleted successfully")]}.

(** The status a probe yields: ["connected"] unless it raised. *)
Definition probe (ping : M unit) : M string :=
  try_except
    (do _ <- ping; ret "connected")
    (λ e, ret ("disconnected: " +:+ exn_str e)).

(** GET /health *)
Definition health_check : M dict :=
  do redis_status <- probe redis_ping;
  do mongo_status <- probe mongo_ping;
  ret (<["status" := VStr "healthy"]>
       (<["redis" := VStr redis_status]>
       (<["mongodb" := VStr mongo_status]> ∅))).

End Handlers.

(** ** A codec for the json interface

    Objects of strings and nulls in json's syntax: members in the order
    of the dictionary's listing, separated as [json.dumps] separates them,
    the quotation mark and the backslash escaped inside strings. *)

Module Codec.

Definition quote : ascii := "034"%char.
Definition backslash : ascii := "\"%char.

Fixpoint escape (s : string) : string :=
  match s with
  | EmptyString => EmptyString
  | String c s' =>
      if (Ascii.eqb c quote || Ascii.eqb c backslash)%bool
      then String backslash (String c (escape s'))
      else String c (escape s')
  end.

Definition write_string (s : string) : string :=
  String quote (escape s +:+ String quote EmptyString).

Definition write_value (v : value) : string :=
  match v with
  | VStr s => write_string s
  | VNone | VOid _ => "null"
  end.

Definition write_member (kv : string * value) : string :=
  write_string (fst kv) +:+ ": " +:+ write_value (snd kv).

Fixpoint write_members (kvs : list (string * value)) : string :=
  match kvs with
  | [] => "}"
  | [kv] => write_member kv +:+ "}"
  | kv :: kvs' => write_member kv +:+ ", " +:+ write_members kvs'
  end.

Definition dumps (d : dict) : string :=
  String "{" (write_members (map_to_list d)).

(** Reads a string literal after its opening quotation mark; gives the text
    and what follows the closing one. *)
Fixpoint read_string (s : string) : option (string * string) :=
  match s with
  | EmptyString => None
  | String c s' =>
      if Ascii.eqb c quote then Some (EmptyString, s')
      else if Ascii.eqb c backslash then
        match s' with
        | String c' s'' =>
            if (Ascii.eqb c' quote || Ascii.eqb c' backslash)%bool then
              match read_string s'' with
              | Some (r, rest) => Some (String c' r, rest)
              | None => None
              end
            else None
        | EmptyString => None
        end
      else
        match read_string s' with
        | Some (r, rest) => Some (String c r, rest)
        | None => None
        end
  end.

Definition read_value (s : string) : option (value * string) :=
  match s with
  | String "n" (String "u" (String "l" (String "l" rest))) => Some (VNone, rest)
  | String c s' =>
      if Ascii.eqb c quote then
        match read_string s' with
        | Some (r, rest) => Some (VStr r, rest)
        | None => None
        end
      else None
  | EmptyString => None
  end.

Definition read_member (s : string) : option ((string * value) * string) :=
  match s with
  | String c s1 =>
      if Ascii.eqb c quote then
        match read_string s1 with
        | Some (k, String ":" (String " " s2)) =>
            match read_value s2 with
            | Some (v, rest) => Some ((k, v), rest)
            | None => None
            end
        | _ => None
        end
      else None
  | EmptyString => None
  end.

Fixpoint read_members (fuel : nat) (s : string) : option (list (string * value)) :=
  match fuel with
  | O => None
  | S fuel' =>
      match read_member s with
      | Some (kv, String "}" EmptyString) => Some [kv]
      | Some (kv, String "," (String " " rest)) =>
          match read_members fuel' rest with
          | Some kvs => Some (kv :: kvs)
          | None => None
          end
      | _ => None
      end
  end.

Definition loads (s : string) : option dict :=
  match s with
  | String "{" (String "}" EmptyString) => Some ∅
  | String "{" s' =>
      match read_members (String.length s') s' with
      | Some kvs => Some (list_to_map kvs)
      | None => None
      end
  | _ => None
  end.

End Codec.

(** ** Vocabulary of the statements *)

(** What the environment has in store for the [k]-th coming network call:
    [Some msg] if it is to raise. *)
Definition outcome_at (k : nat) (w : World) : option string :=
  match outcomes w !! k with
  | Some o => o
  | None => None
  end.

(** No coming network call raises. *)
Definition quiet (w : World) : Prop := Forall (λ o, o = None) (outcomes w).

(** The world once the call [c] has been made. *)
Definition after_call (c : Call) (w : World) : World :=
  mkWorld (redis w) (events w) (tail (outcomes w)) (utcnow w) (oid_counter w)
    (calls w ++ [c]).

(** The two shapes under which a document answers to an identifier: its
    ["_id"] is the [ObjectId] the identifier spells, or its ["id"] field is
    the identifier. *)
Definition native_filter (event_id : string) : option dict :=
  match ObjectId_parse event_id with
  | Some o => Some {["_id" := VOid o]}
  | None => None
  end.

Definition string_filter (event_id : string) : dict := {["id" := VStr event_id]}.

Definition addressed_by (event_id : string) (d : dict) : bool :=
  match native_filter event_id with
  | Some f => matches f d
  | None => false
  end || matches (string_filter event_id) d.

(** The store calls of the two lookups, in order. *)
Definition lookup_calls (event_id : string) (w : World) : list Call :=
  match native_filter event_id with
  | None => [FindOne (string_filter event_id)]
  | Some f =>
      match outcome_at 0 w, List.find (matches f) (events w) with
      | None, Some _ => [FindOne f]
      | _, _ => [FindOne f; FindOne (string_filter event_id)]
      end
  end.


(** The record [create_event] hands to the collection, and the record as
    stored. *)
Definition new_record (ev : EventCreate) (w : World) : dict :=
  <["created_at" := VStr (utcnow w)]> (create_dump ev).

Definition stored_record (ev : EventCreate) (w : World) : dict :=
  <["_id" := VOid (oid_of_N (oid_counter w))]> (new_record ev w).

(** The Event of a creation input under an identifier. *)
Definition event_of (i : string) (ev : EventCreate) : Event :=
  mkEvent i (c_title ev) (c_description ev) (c_date ev) (c_location ev)
    (c_category ev) (c_organizer ev).

(** What [get_event] takes from the cache: the text under the key, unless
    there is none or it is falsy. *)
Definition cached (key : string) (w : World) : option string :=
  match redis w !! key with
  | Some (text, _) => if str_truthy text then Some text else None
  | None => None
  end.

(** The status [health_check] reports for a probe, from its outcome. *)
Definition status_of (o : option string) : string :=
  match o with
  | None => "connected"
  | Some msg => "disconnected: " +:+ msg
  end.

Section Shapes.
Context `{Json}.

(** The persisted shapes of section 6 of the specification: a cache entry is
    the serialisation of an Event, a stored record carries a twelve-byte
    ["_id"] and the fields of an Event. *)
Definition snapshot_ok (text : string) : bool :=
  str_truthy text &&
  match json_loads text with
  | Some d => match Event_new d with Some _ => true | None => false end
  | None => false
  end.

Definition cache_ok (w : World) : bool :=
  forallb (λ kv, snapshot_ok (fst (snd kv))) (map_to_list (redis w)).

Definition record_ok (d : dict) : bool :=
  match d !! "_id" with
  | Some (VOid o) => (length o =? 12)%nat
  | _ => false
  end &&
  match Event_new (normalize d) with Some _ => true | None => false end.

Definition store_ok (w : World) : bool := forallb record_ok (events w).

(** [get_event] answers [e] from the cache alone: one read of the cache,
    at the key ["event:" + event_id], is the only call made, and the cache
    and the collection are left as they were. *)
Definition served_from_cache (event_id : string) (e : Event) (w : World) : Prop :=
  ∃ w', get_event event_id w = (Ok e, w')
        ∧ calls w' = calls w ++ [RedisGet ("event:" +:+ event_id)]
        ∧ redis w' = redis w
        ∧ events w' = events w.

(** The world once [get_event] has written the snapshot of [e] for
    [event_id] in the cache. *)
Definition populated (event_id : string) (e : Event) (w : World) : World :=
  set_redis
    (insert (cache_key_of event_id) (json_dumps (model_dump e), CACHE_TTL))
    (after_call
       (RedisSetex (cache_key_of event_id) CACHE_TTL (json_dumps (model_dump e)))
       w).

End Shapes.

(** ** Sample data

    The first two documents of seed_db.py, inserted in a fresh collection,
    and worlds built from them. *)

Module Sample.

Definition seed (i t de da l c o : string) : dict :=
  <["id" := VStr i]>
  (<["title" := VStr t]>
  (<["description" := VStr de]>
  (<["date" := VStr da]>
  (<["location" := VStr l]>
  (<["category" := VStr c]>
  (<["organizer" := VStr o]>
  (<["created_at" := VStr "2025-10-01T08:00:00"]> ∅))))))).

Definition tech : dict :=
  seed "1" "Tech Conference 2025"
    "Annual technology conference featuring the latest innovations"
    "2025-11-15T09:00:00" "San Francisco, CA" "Technology" "Tech Corp".

Definition music : dict :=
  seed "2" "Music Festival"
    "Three-day outdoor music festival with top artists"
    "2025-08-20T14:00:00" "Austin, TX" "Music" "Live Nation".

Definition empty_world : World :=
  mkWorld ∅ [] [] "2025-10-01T08:00:00" 1 [].

(** [insert_many] of the two, one document after the other. *)
Definition inserted : World :=
  snd ((do _ <- insert_one tech; insert_one music) empty_world).

(** The seeded collection in front of an empty cache, with nothing logged
    yet, when the coming calls fare as listed. *)
Definition seeded_with (os : list (option string)) : World :=
  mkWorld ∅ (events inserted) os (utcnow inserted) (oid_counter inserted) [].

Definition seeded : World := seeded_with [].

(** A collection in which a document carries, in its string field, an
    identifier that reads as an [ObjectId]. *)
Definition marathon : dict :=
  seed "aaaaaaaaaaaaaaaaaaaaaaaa" "Marathon 2025"
    "Annual city marathon for runners of all levels"
    "2025-09-10T07:00:00" "Boston, MA" "Sports" "Boston Athletic Association".

Definition hex_named : World :=
  mkWorld ∅
    (events (snd ((do _ <- insert_one tech; insert_one marathon) empty_world)))
    [] (utcnow inserted) (oid_counter inserted) [].

(** The first document as stored. *)
Definition tech_stored : dict := <["_id" := VOid (oid_of_N 1)]> tech.

(** The Event [get_event] makes of the first document. *)
Definition tech_event : Event :=
  mkEvent "000000000000000000000001" "Tech Conference 2025"
    "Annual technology conference featuring the latest innovations"
    "2025-11-15T09:00:00" "San Francisco, CA" (Some "Technology")
    (Some "Tech Corp").

Definition workshop : EventCreate :=
  mkEventCreate "AI Workshop Bengaluru"
    "Hands-on workshop on machine learning and AI"
    "2025-11-01T10:00:00" "Bengaluru, Karnataka" (Some "Technology") None.

(** Readings of the clock a few microseconds apart, as the loading of
    seed_db.py takes them, one for each of its samples. *)
Definition load_clock (k : nat) : string :=
  nth k
    [ "2025-10-02T09:30:00.004211"; "2025-10-02T09:30:00.004219";
      "2025-10-02T09:30:00.004224"; "2025-10-02T09:30:00.004229";
      "2025-10-02T09:30:00.004233" ]
    "2025-10-02T09:30:00.004240".

End Sample.

(** ** The static list of main.py (lines 55-100) *)



(** ** seed_db.py

    The script is a process of its own, with its own pymongo client on the
    same collection. Its calls draw their outcome from the environment like
    the service's; the bulk calls, which belong to no client of the service,
    are not entered in [calls]. What the script prints and what it reads
    from the console are not part of the model: console input comes as
    arguments. [client.close()] ends the connection of the process; what a
    later call in the same process would do depends on the driver, and no
    function here is run after another in one process. *)

Module Seed.

(** A call of the script's client. *)
Definition draw : M unit :=
  λ w,
    (match outcome_at 0 w with
     | Some msg => Raise (ServiceError msg)
     | None => Ok ()
     end,
     mkWorld (redis w) (events w) (tail (outcomes w)) (utcnow w) (oid_counter w)
       (calls w)).

(** [delete_many]: removes every matching document; the result is
    [deleted_count]. *)
Definition delete_many (filter : dict) : M Z :=
  do _ <- draw;
  do n <- gets (λ w, Z.of_nat (length (List.filter (matches filter) (events w))));
  do _ <- modify (set_events (List.filter (λ d, negb (matches filter d))));
  ret n.

(** The documents of a bulk insertion once each one without ["_id"] has
    been given a fresh [ObjectId], in place, and the generator's next state. *)
Fixpoint assign_ids (docs : list dict) (n : N) : list dict * N :=
  match docs with
  | [] => ([], n)
  | d :: docs' =>
      match d !! "_id" with
      | Some _ => let (r, n') := assign_ids docs' n in (d :: r, n')
      | None =>
          let (r, n') := assign_ids docs' (n + 1) in
          (<["_id" := VOid (oid_of_N n)]> d :: r, n')
      end
  end.

(** An ordered bulk insertion: the documents go in one after the other, up
    to the first whose ["_id"] is taken. The result is the collection and
    whether all went in. *)
Fixpoint insert_ordered (docs coll : list dict) : list dict * bool :=
  match docs with
  | [] => (coll, true)
  | d :: docs' =>
      match d !! "_id" with
      | Some v =>
          if existsb (matches {["_id" := v]}) coll then (coll, false)
          else insert_ordered docs' (coll ++ [d])
      | None => insert_ordered docs' (coll ++ [d])
      end
  end.

(** [insert_many]; the result is [inserted_ids]. The error of a refused
    document is the [BulkWriteError] that wraps the duplicate key. *)
Definition insert_many (docs : list dict) : M (list (option value)) :=
  do _ <- draw;
  do n <- gets oid_counter;
  let (docs, n') := assign_ids docs n in
  do _ <- modify (λ w, mkWorld (redis w) (events w) (outcomes w) (utcnow w) n'
                         (calls w));
  do coll <- gets events;
  let (coll', ok) := insert_ordered docs coll in
  do _ <- modify (set_events (λ _, coll'));
  if ok : bool then ret (map (λ d, d !! "_id") docs)
  else raise DuplicateKeyError.

(** [find()], read to its end. *)
Definition find_all : M (list dict) :=
  do _ <- draw;
  gets events.

(** Lines 14-65. The list is built when the module is loaded, and each of
    its five entries reads the clock for itself (lines 23, 33, 43, 53, 63):
    [now k] is what the [k]-th [datetime.utcnow().isoformat()] returned. *)
Definition sample_event (now i t de da l c o : string) : dict :=
  <["id" := VStr i]>
  (<["title" := VStr t]>
  (<["description" := VStr de]>
  (<["date" := VStr da]>
  (<["location" := VStr l]>
  (<["category" := VStr c]>
  (<["organizer" := VStr o]>
  (<["created_at" := VStr now]> ∅))))))).

Definition sample_events (now : nat → string) : list dict :=
  [ sample_event (now 0%nat) "1" "Tech Conference 2025"
      "Annual technology conference featuring the latest innovations"
      "2025-11-15T09:00:00" "San Francisco, CA" "Technology" "Tech Corp";
    sample_event (now 1%nat) "2" "Music Festival"
      "Three-day outdoor music festival with top artists"
      "2025-08-20T14:00:00" "Austin, TX" "Music" "Live Nation";
    sample_event (now 2%nat) "3" "Food & Wine Expo"
      "Culinary experience with renowned chefs"
      "2025-10-05T11:00:00" "New York, NY" "Food" "Culinary Institute";
    sample_event (now 3%nat) "4" "Marathon 2025"
      "Annual city marathon for runners of all levels"
      "2025-09-10T07:00:00" "Boston, MA" "Sports" "Boston Athletic Association";
    sample_event (now 4%nat) "5" "AI Workshop Bengaluru"
      "Hands-on workshop on machine learning and AI"
      "2025-11-01T10:00:00" "Bengaluru, Karnataka" "Technology"
      "Indian Institute of Science" ].

(** Lines 67-100. Inside the [try]: the collection is cleared, the samples
    inserted, the collection read back to be printed. Whatever is raised is
    caught and reported on the console. *)
Definition seed_database (now : nat → string) : M unit :=
  try_except
    (do _ <- delete_many ∅;
     do _ <- insert_many (sample_events now);
     do _ <- find_all;
     ret ())
    (λ _, ret ()).

(** [input(...) or default]. *)
Definition or_default (typed default : string) : string :=
  if str_truthy typed then typed else default.

(** Lines 102-129; the arguments are the six lines typed at the prompts.
    The result is [inserted_id], or [None] when the insertion raised. *)
Definition add_custom_event (title description date location category organizer
    : string) : M (option value) :=
  let category := or_default category "General" in
  let organizer := or_default organizer "Unknown" in
  do now <- gets utcnow;
  let custom_event : dict :=
    <["title" := VStr title]>
    (<["description" := VStr description]>
    (<["date" := VStr date]>
    (<["location" := VStr location]>
    (<["category" := VStr category]>
    (<["organizer" := VStr organizer]>
    (<["created_at" := VStr now]> ∅)))))) in
  try_except
    (do '(inserted_id, _) <- insert_one custom_event;
     ret (Some inserted_id))
    (λ _, ret None).

End Seed.

(** ** Vocabulary of the further statements *)

(** What the two lookups of [get_event] yield from a collection when their
    calls go through. *)
Definition found (event_id : string) (l : list dict) : option dict :=
  match native_filter event_id with
  | Some f =>
      match List.find (matches f) l with
      | Some d => Some d
      | None => List.find (matches (string_filter event_id)) l
      end
  | None => List.find (matches (string_filter event_id)) l
  end.

(** The answer of [get_event] from the collection, when the cache has
    nothing and every call goes through. *)
Definition get_result (event_id : string) (l : list dict) : Result Event :=
  match found event_id l with
  | None => Raise (not_found event_id)
  | Some d =>
      match Event_new (normalize d) with
      | Some e => Ok e
      | None => Raise ValidationError
      end
  end.

(** The number an [ObjectId] spells, most significant byte first. *)
Definition oid_value (o : ObjectId) : N :=
  fold_left (λ acc b, (acc * 256 + Byte.to_N b)%N) o 0%N.

(** The samples of seed_db.py, read off the clock as [now], as stored by a
    generator in state [n]. *)
Definition seeded_events (now : nat → string) (n : N) : list dict :=
  fst (Seed.assign_ids (Seed.sample_events now) n).

(** The filter of the one deletion [delete_event] performs when its calls
    go through: by [ObjectId] if the identifier spells one, by the string
    field otherwise. *)
Definition deletion_filter (event_id : string) : dict :=
  match native_filter event_id with
  | Some f => f
  | None => string_filter event_id
  end.

(** The answer of a [delete_event] that removed a document. *)
Definition deleted_message (event_id : string) : dict :=
  {["message" := VStr ("Event " +:+ event_id +:+ " deleted successfully")]}.

(** The record [add_custom_event] hands to the collection. *)
Definition custom_record (title description date location category organizer
    : string) (w : World) : dict :=
  <["title" := VStr title]>
  (<["description" := VStr description]>
  (<["date" := VStr date]>
  (<["location" := VStr location]>
  (<["category" := VStr (Seed.or_default category "General")]>
  (<["organizer" := VStr (Seed.or_default organizer "Unknown")]>
  (<["created_at" := VStr (utcnow w)]> ∅)))))).


(** * Properties *)

(** ** Strings *)

Lemma append_cons (c : ascii) (s t : string) :
  String c s +:+ t = String c (s +:+ t).
Proof. reflexivity. Qed.

Lemma append_empty (t : string) : EmptyString +:+ t = t.
Proof. reflexivity. Qed.

Lemma append_assoc (s t u : string) : (s +:+ t) +:+ u = s +:+ (t +:+ u).
Proof.
  induction s as [|c s IH]; [reflexivity|].
  rewrite !append_cons. by rewrite IH.
Qed.

Lemma append_length (s t : string) :
  String.length (s +:+ t) = (String.length s + String.length t)%nat.
Proof.
  induction s as [|c s IH]; [reflexivity|].
  rewrite append_cons. simpl. by rewrite IH.
Qed.

(** ** The codec obeys the json interface *)

Module CodecFacts.
Import Codec.

Lemma read_string_quote (s : string) :
  read_string (String quote s) = Some (EmptyString, s).
Proof. reflexivity. Qed.

Lemma read_string_escaped (c : ascii) (s : string) :
  (Ascii.eqb c quote || Ascii.eqb c backslash)%bool = true →
  read_string (String backslash (String c s))
  = match read_string s with
    | Some (r, rest) => Some (String c r, rest)
    | None => None
    end.
Proof.
  intros Hc. change (read_string (String backslash (String c s))) with
    (if (Ascii.eqb c quote || Ascii.eqb c backslash)%bool then
       match read_string s with
       | Some (r, rest) => Some (String c r, rest)
       | None => None
       end
     else None).
  by rewrite Hc.
Qed.

Lemma read_string_plain (c : ascii) (s : string) :
  (Ascii.eqb c quote || Ascii.eqb c backslash)%bool = false →
  read_string (String c s)
  = match read_string s with
    | Some (r, rest) => Some (String c r, rest)
    | None => None
    end.
Proof.
  intros [Hq Hb]%orb_false_elim. simpl. by rewrite Hq, Hb.
Qed.

Lemma read_string_escape (s rest : string) :
  read_string (escape s +:+ String quote rest) = Some (s, rest).
Proof.
  induction s as [|c s IH].
  - rewrite append_empty. apply read_string_quote.
  - simpl escape.
    destruct (Ascii.eqb c quote || Ascii.eqb c backslash)%bool eqn:Hc.
    + rewrite !append_cons, read_string_escaped by done. by rewrite IH.
    + rewrite append_cons, read_string_plain by done. by rewrite IH.
Qed.

Lemma read_value_write (v : value) (rest : string) :
  match v with VOid _ => False | _ => True end →
  read_value (write_value v +:+ rest) = Some (v, rest).
Proof.
  destruct v as [|s|o]; intros Hv; [reflexivity| |done].
  unfold write_value, write_string.
  rewrite append_cons, append_assoc, append_cons, append_empty.
  unfold read_value. change (Ascii.eqb quote quote) with true.
  cbv iota. by rewrite read_string_escape.
Qed.

Lemma read_member_write (kv : string * value) (rest : string) :
  match snd kv with VOid _ => False | _ => True end →
  read_member (write_member kv +:+ rest) = Some (kv, rest).
Proof.
  destruct kv as [k v]; simpl; intros Hv.
  unfold write_member, write_string; simpl fst; simpl snd.
  rewrite !append_cons, !append_assoc, !append_cons, append_empty.
  unfold read_member. change (Ascii.eqb quote quote) with true.
  cbv iota. rewrite read_string_escape, append_empty.
  by rewrite read_value_write.
Qed.

Lemma read_members_step (fuel : nat) (s : string) :
  read_members (S fuel) s
  = match read_member s with
    | Some (kv, String "}" EmptyString) => Some [kv]
    | Some (kv, String "," (String " " rest)) =>
        match read_members fuel rest with
        | Some kvs => Some (kv :: kvs)
        | None => None
        end
    | _ => None
    end.
Proof. reflexivity. Qed.

Lemma read_members_write (kvs : list (string * value)) (fuel : nat) :
  kvs ≠ [] →
  Forall (λ kv, match snd kv with VOid _ => False | _ => True end) kvs →
  (length kvs ≤ fuel)%nat →
  read_members fuel (write_members kvs) = Some kvs.
Proof.
  revert fuel. induction kvs as [|kv kvs IH]; intros fuel Hne Hall Hlen; [done|].
  destruct fuel as [|fuel]; [simpl in Hlen; lia|].
  apply Forall_cons in Hall as [Hkv Hall].
  rewrite read_members_step.
  destruct kvs as [|kv' kvs].
  - change (write_members [kv]) with (write_member kv +:+ "}").
    by rewrite read_member_write.
  - change (write_members (kv :: kv' :: kvs))
      with (write_member kv +:+ ", " +:+ write_members (kv' :: kvs)).
    rewrite read_member_write by done.
    rewrite !append_cons, append_empty.
    rewrite IH; [done|done|done|simpl in *; lia].
Qed.

Lemma write_members_length (kvs : list (string * value)) :
  (length kvs ≤ String.length (write_members kvs))%nat.
Proof.
  induction kvs as [|kv kvs IH]; [simpl; lia|].
  destruct kvs as [|kv' kvs].
  - simpl. rewrite append_length. simpl. lia.
  - change (write_members (kv :: kv' :: kvs))
      with (write_member kv +:+ ", " +:+ write_members (kv' :: kvs)).
    rewrite !append_length. simpl in *. lia.
Qed.

Lemma loads_object (t : string) :
  loads (String "{" (String quote t))
  = match read_members (String.length (String quote t)) (String quote t) with
    | Some kvs => Some (list_to_map kvs)
    | None => None
    end.
Proof. reflexivity. Qed.

Lemma loads_dumps (d : dict) : jsonable d → loads (dumps d) = Some d.
Proof.
  intros Hd. unfold dumps.
  apply map_Forall_to_list in Hd.
  destruct (map_to_list d) as [|kv kvs] eqn:Hl.
  - apply map_to_list_empty_iff in Hl as ->. reflexivity.
  - assert (Hw : ∃ t, write_members (kv :: kvs) = String quote t).
    { destruct kvs; simpl; unfold write_member, write_string;
        rewrite !append_cons; eauto. }
    destruct Hw as [t Ht].
    assert (Hr : read_members (String.length (write_members (kv :: kvs)))
                   (write_members (kv :: kvs)) = Some (kv :: kvs)).
    { apply read_members_write; [done| |apply write_members_length].
      eapply Forall_impl; [exact Hd|]. by intros [k v]. }
    rewrite Ht in *. rewrite loads_object, Hr, <- Hl.
    by rewrite list_to_map_to_list.
Qed.

Lemma dumps_truthy (d : dict) : str_truthy (dumps d) = true.
Proof. reflexivity. Qed.

End CodecFacts.

Definition codec_json : Json := {|
  json_dumps := Codec.dumps;
  json_loads := Codec.loads;
  json_loads_dumps := CodecFacts.loads_dumps;
  json_dumps_truthy := CodecFacts.dumps_truthy |}.

(** ** ObjectId: text and back *)

Lemma fromhex_byte (b : byte) (s : string) :
  fromhex (String (hex_digit (Byte.to_N b / 16))
             (String (hex_digit (Byte.to_N b mod 16)) s))
  = match fromhex s with
    | Some bs => Some (b :: bs)
    | None => None
    end.
Proof. destruct b; reflexivity. Qed.

Lemma fromhex_hex (bs : list byte) : fromhex (hex bs) = Some bs.
Proof.
  induction bs as [|b bs IH]; [reflexivity|].
  change (hex (b :: bs)) with
    (String (hex_digit (Byte.to_N b / 16))
       (String (hex_digit (Byte.to_N b mod 16)) (hex bs))).
  by rewrite fromhex_byte, IH.
Qed.

Lemma hex_length (bs : list byte) :
  String.length (hex bs) = (2 * length bs)%nat.
Proof. induction bs as [|b bs IH]; simpl; lia. Qed.

Lemma ObjectId_parse_str (o : ObjectId) :
  length o = 12%nat → ObjectId_parse (oid_str o) = Some o.
Proof.
  intros Hlen. unfold ObjectId_parse, oid_str.
  rewrite hex_length, Hlen. simpl. apply fromhex_hex.
Qed.

Lemma oid_str_truthy (o : ObjectId) :
  length o = 12%nat → str_truthy (oid_str o) = true.
Proof. destruct o; [done|reflexivity]. Qed.

Lemma ObjectId_is_valid_str (o : ObjectId) :
  length o = 12%nat → ObjectId_is_valid (oid_str o) = true.
Proof.
  intros Hlen. unfold ObjectId_is_valid.
  by rewrite oid_str_truthy, ObjectId_parse_str.
Qed.

Lemma ObjectId_is_valid_parse (s : string) :
  ObjectId_is_valid s = true ↔ is_Some (ObjectId_parse s).
Proof.
  unfold ObjectId_is_valid. destruct s as [|c s]; simpl.
  - split; [done|]. by intros [o Ho].
  - destruct (ObjectId_parse (String c s)); split; eauto; try done.
Qed.

Lemma oid_of_N_length (n : N) : length (oid_of_N n) = 12%nat.
Proof. reflexivity. Qed.

(** ** Events and dictionaries *)

Lemma Event_new_model_dump (e : Event) : Event_new (model_dump e) = Some e.
Proof. destruct e as [i t de da l [c|] [o|]]; reflexivity. Qed.

Lemma model_dump_jsonable (e : Event) : jsonable (model_dump e).
Proof.
  unfold jsonable, model_dump.
  repeat (apply map_Forall_insert_2; [by destruct e as [? ? ? ? ? [?|] [?|]]|]).
  apply map_Forall_empty.
Qed.

Lemma model_dump_no_native (e : Event) : model_dump e !! "_id" = None.
Proof. reflexivity. Qed.

Lemma matches_singleton (k : string) (v : value) (d : dict) :
  matches {[k := v]} d = bool_decide (d !! k = Some v).
Proof. unfold matches. by rewrite map_fold_singleton. Qed.

Lemma matches_nonempty (k : string) (v : value) (d : dict) :
  matches {[k := v]} d = true → dict_truthy (Some d) = true.
Proof.
  rewrite matches_singleton. intros Hd%bool_decide_eq_true. simpl.
  rewrite bool_decide_eq_false_2; [done|]. intros ->. by rewrite lookup_empty in Hd.
Qed.

Lemma normalize_native (d : dict) (v : value) :
  d !! "_id" = Some v →
  normalize d !! "id" = Some (VStr (py_str v)) ∧ normalize d !! "_id" = None.
Proof.
  intros Hd. unfold normalize. rewrite Hd. split.
  - apply lookup_insert_eq.
  - rewrite lookup_insert_ne by done. apply lookup_delete_eq.
Qed.

Lemma Event_new_id (d : dict) (e : Event) :
  Event_new d = Some e → d !! "id" = Some (VStr (id e)).
Proof.
  unfold Event_new, field_str. intros He.
  destruct (d !! "id") as [[|s|]|]; simplify_option_eq. done.
Qed.

(** ** Network calls *)

Lemma call_eq (c : Call) (w : World) :
  call c w
  = (match outcome_at 0 w with
     | Some msg => Raise (ServiceError msg)
     | None => Ok ()
     end, after_call c w).
Proof.
  unfold call, outcome_at, after_call.
  destruct (outcomes w) as [|[msg|] rest]; reflexivity.
Qed.

Lemma outcome_at_after_call (k : nat) (c : Call) (w : World) :
  outcome_at k (after_call c w) = outcome_at (S k) w.
Proof.
  unfold outcome_at, after_call. simpl.
  by destruct (outcomes w) as [|o rest].
Qed.

Lemma quiet_outcome_at (k : nat) (w : World) : quiet w → outcome_at k w = None.
Proof.
  unfold quiet, outcome_at. intros Hq.
  destruct (outcomes w !! k) as [o|] eqn:Hk; [|done].
  by eapply Forall_lookup_1 in Hq.
Qed.

Lemma quiet_after_call (c : Call) (w : World) : quiet w → quiet (after_call c w).
Proof.
  unfold quiet, after_call. simpl. intros Hq.
  destruct (outcomes w); [done|]. by apply Forall_cons in Hq as [_ ?].
Qed.

Lemma redis_get_eq (key : string) (w : World) :
  redis_get key w
  = (match outcome_at 0 w with
     | Some msg => Raise (ServiceError msg)
     | None => Ok (fst <$> redis w !! key)
     end, after_call (RedisGet key) w).
Proof.
  unfold redis_get, bind, gets. rewrite call_eq.
  by destruct (outcome_at 0 w).
Qed.

Lemma redis_setex_eq (key : string) (ttl : Z) (val : string) (w : World) :
  redis_setex key ttl val w
  = match outcome_at 0 w with
    | Some msg => (Raise (ServiceError msg), after_call (RedisSetex key ttl val) w)
    | None => (Ok (), set_redis (insert key (val, ttl))
                        (after_call (RedisSetex key ttl val) w))
    end.
Proof.
  unfold redis_setex, bind, modify. rewrite call_eq.
  by destruct (outcome_at 0 w).
Qed.

Lemma redis_delete_eq (key : string) (w : World) :
  redis_delete key w
  = match outcome_at 0 w with
    | Some msg => (Raise (ServiceError msg), after_call (RedisDelete key) w)
    | None => (Ok (), set_redis (delete key) (after_call (RedisDelete key) w))
    end.
Proof.
  unfold redis_delete, bind, modify. rewrite call_eq.
  by destruct (outcome_at 0 w).
Qed.

Lemma find_one_eq (filter : dict) (w : World) :
  find_one filter w
  = (match outcome_at 0 w with
     | Some msg => Raise (ServiceError msg)
     | None => Ok (List.find (matches filter) (events w))
     end, after_call (FindOne filter) w).
Proof.
  unfold find_one, bind, gets. rewrite call_eq.
  by destruct (outcome_at 0 w).
Qed.

Lemma delete_one_eq (filter : dict) (w : World) :
  delete_one filter w
  = match outcome_at 0 w with
    | Some msg => (Raise (ServiceError msg), after_call (DeleteOne filter) w)
    | None =>
        (Ok (if existsb (matches filter) (events w) then 1 else 0),
         set_events (remove_first (matches filter))
           (after_call (DeleteOne filter) w))
    end.
Proof.
  unfold delete_one, bind, gets, modify, ret. rewrite call_eq.
  by destruct (outcome_at 0 w).
Qed.

Lemma probe_eq (c : Call) (w : World) :
  probe (call c) w = (Ok (status_of (outcome_at 0 w)), after_call c w).
Proof.
  unfold probe, try_except, bind, ret. rewrite call_eq.
  by destruct (outcome_at 0 w).
Qed.

(** ** GET /health *)

Lemma health_check_eq (w : World) :
  health_check w
  = (Ok (<["status" := VStr "healthy"]>
         (<["redis" := VStr (status_of (outcome_at 0 w))]>
         (<["mongodb" := VStr (status_of (outcome_at 1 w))]> ∅))),
     after_call MongoPing (after_call RedisPing w)).
Proof.
  unfold health_check, bind, ret, redis_ping, mongo_ping.
  by rewrite !probe_eq, outcome_at_after_call.
Qed.

(** C8. [health_check] returns a report in every world, whatever the two
    probes meet. Both probes are always made, the cache first and the store
    second; the ["redis"] entry of the report depends on the outcome of the
    first alone and the ["mongodb"] entry on that of the second alone, each
    being ["connected"] or ["disconnected: "] followed by the text of what
    the probe raised. Nothing else happens to the cache or the collection. *)
Theorem health_check_never_fails (w : World) :
  ∃ report w',
    health_check w = (Ok report, w')
    ∧ report !! "redis" = Some (VStr (status_of (outcome_at 0 w)))
    ∧ report !! "mongodb" = Some (VStr (status_of (outcome_at 1 w)))
    ∧ calls w' = calls w ++ [RedisPing; MongoPing]
    ∧ redis w' = redis w
    ∧ events w' = events w.
Proof.
  eexists _, _. split; [apply health_check_eq|].
  repeat split; try reflexivity.
  simpl. by rewrite <- app_assoc.
Qed.

(** C10. The report of [health_check] carries ["status"] equal to
    ["healthy"] in every world, so also when both probes raise. *)
Theorem health_check_status_healthy (w : World) :
  ∃ report w',
    health_check w = (Ok report, w')
    ∧ report !! "status" = Some (VStr "healthy").
Proof.
  eexists _, _. split; [apply health_check_eq|reflexivity].
Qed.

(** ** GET /api/events/{event_id} *)

Section GetEvent.
Context `{Json}.

Lemma native_filter_valid (event_id : string) :
  ObjectId_is_valid event_id = true ↔ is_Some (native_filter event_id).
Proof.
  rewrite ObjectId_is_valid_parse. unfold native_filter.
  destruct (ObjectId_parse event_id); split; intros [? ?]; eauto; done.
Qed.

Lemma find_matches (f : dict) (l : list dict) (d : dict) :
  List.find (matches f) l = Some d → d ∈ l ∧ matches f d = true.
Proof. intros [? ?]%find_some. by rewrite list_elem_of_In. Qed.

(** The two lookups, in closed form. *)
Lemma store_lookup_eq (event_id : string) (w : World) :
  store_lookup event_id w
  = match native_filter event_id with
    | None => find_one (string_filter event_id) w
    | Some f =>
        match outcome_at 0 w, List.find (matches f) (events w) with
        | None, Some d => (Ok (Some d), after_call (FindOne f) w)
        | _, _ => find_one (string_filter event_id) (after_call (FindOne f) w)
        end
    end.
Proof.
  unfold store_lookup, native_lookup, native_attempt, native_filter,
    ObjectId_is_valid, ObjectId_new, string_fallback, string_filter.
  destruct (ObjectId_parse event_id) as [o|] eqn:Ho.
  - assert (str_truthy event_id = true) as ->.
    { destruct event_id; [done|reflexivity]. }
    unfold bind, try_except, ret. rewrite find_one_eq.
    destruct (outcome_at 0 w) as [msg|]; [done|].
    destruct (List.find _ (events w)) as [d|] eqn:Hd; [|done].
    apply find_matches in Hd as [_ Hd].
    by rewrite (matches_nonempty _ _ _ Hd).
  - unfold bind, try_except, ret. by destruct (str_truthy event_id).
Qed.

Lemma store_lookup_found (event_id : string) (w w' : World) (doc : dict) :
  store_lookup event_id w = (Ok (Some doc), w') →
  doc ∈ events w ∧ addressed_by event_id doc = true
  ∧ dict_truthy (Some doc) = true
  ∧ redis w' = redis w ∧ events w' = events w.
Proof.
  rewrite store_lookup_eq. unfold addressed_by, native_filter.
  assert (Hfallback : ∀ w0, events w0 = events w → redis w0 = redis w →
            ∀ b, find_one (string_filter event_id) w0 = (Ok (Some doc), w') →
            doc ∈ events w ∧ b || matches (string_filter event_id) doc = true
            ∧ dict_truthy (Some doc) = true
            ∧ redis w' = redis w ∧ events w' = events w).
  { intros w0 He Hr b. rewrite find_one_eq.
    destruct (outcome_at 0 w0); intros Heq; [discriminate Heq|].
    injection Heq as Hd <-. rewrite He in Hd.
    apply find_matches in Hd as [? Hd]. rewrite Hd, orb_true_r.
    unfold string_filter in Hd. rewrite (matches_nonempty _ _ _ Hd).
    repeat split; [assumption|exact Hr|exact He]. }
  destruct (ObjectId_parse event_id) as [o|]; [|by apply Hfallback].
  destruct (outcome_at 0 w) as [msg|]; [by apply Hfallback|].
  destruct (List.find _ (events w)) as [d|] eqn:Hd; [|by apply Hfallback].
  intros Heq. injection Heq as <- <-.
  apply find_matches in Hd as [? Hd]. rewrite Hd.
  rewrite (matches_nonempty _ _ _ Hd).
  repeat split; assumption.
Qed.

Lemma answer_from_eq (event_id : string) (r : option dict) (w : World) :
  answer_from event_id r w
  = match r with
    | Some doc =>
        if dict_truthy (Some doc) then
          match Event_new (normalize doc) with
          | Some e =>
              match outcome_at 0 w with
              | None => (Ok e, populated event_id e w)
              | Some msg =>
                  (Raise (ServiceError msg),
                   after_call (RedisSetex (cache_key_of event_id) CACHE_TTL
                                 (json_dumps (model_dump e))) w)
              end
          | None => (Raise ValidationError, w)
          end
        else (Raise (not_found event_id), w)
    | None => (Raise (not_found event_id), w)
    end.
Proof.
  unfold answer_from. destruct r as [doc|]; [|done].
  destruct (dict_truthy (Some doc)); [|done].
  change (negb true) with false. cbv iota.
  unfold bind, Event_init, ret, raise, populated.
  destruct (Event_new (normalize doc)) as [e|]; [|done].
  rewrite redis_setex_eq. by destruct (outcome_at 0 w).
Qed.

Lemma get_event_eq (event_id : string) (w : World) :
  get_event event_id w
  = match outcome_at 0 w with
    | Some msg =>
        (Raise (ServiceError msg), after_call (RedisGet (cache_key_of event_id)) w)
    | None =>
        match cached (cache_key_of event_id) w with
        | Some text =>
            Event_of_json text (after_call (RedisGet (cache_key_of event_id)) w)
        | None =>
            get_event_miss event_id (after_call (RedisGet (cache_key_of event_id)) w)
        end
    end.
Proof.
  unfold get_event, bind, cached. rewrite redis_get_eq.
  destruct (outcome_at 0 w); [done|].
  destruct (redis w !! cache_key_of event_id) as [[text ttl]|]; simpl; [|done].
  by destruct (str_truthy text).
Qed.

Lemma get_event_miss_eq (event_id : string) (w : World) :
  get_event_miss event_id w
  = match store_lookup event_id w with
    | (Ok r, w2) => answer_from event_id r w2
    | (Raise x, w2) => (Raise x, w2)
    end.
Proof. reflexivity. Qed.

Lemma Event_of_json_eq (text : string) (w : World) :
  Event_of_json text w
  = (match json_loads text with
     | Some d =>
         match Event_new d with
         | Some e => Ok e
         | None => Raise ValidationError
         end
     | None => Raise JSONDecodeError
     end, w).
Proof.
  unfold Event_of_json, Event_init, ret, raise.
  destruct (json_loads text) as [d|]; [|done]. by destruct (Event_new d).
Qed.

Lemma snapshot_reads_back (e : Event) :
  json_loads (json_dumps (model_dump e)) = Some (model_dump e).
Proof. apply json_loads_dumps, model_dump_jsonable. Qed.

(** A hit, whatever text the cache holds, as long as it reads as [e]. *)
Lemma get_event_hit (event_id text : string) (ttl : Z) (d : dict) (e : Event)
    (w : World) :
  outcome_at 0 w = None →
  redis w !! cache_key_of event_id = Some (text, ttl) →
  str_truthy text = true →
  json_loads text = Some d →
  Event_new d = Some e →
  served_from_cache event_id e w.
Proof.
  intros H0 Hr Ht Hd He. exists (after_call (RedisGet (cache_key_of event_id)) w).
  split; [|by repeat split].
  rewrite get_event_eq, H0. unfold cached. rewrite Hr, Ht.
  by rewrite Event_of_json_eq, Hd, He.
Qed.

(** After a [get_event] that returned [e], the cache holds under the key a
    text that reads as [e]. *)
Lemma get_event_leaves_snapshot (event_id : string) (e : Event) (w w' : World) :
  get_event event_id w = (Ok e, w') →
  ∃ text ttl d,
    redis w' !! cache_key_of event_id = Some (text, ttl)
    ∧ str_truthy text = true
    ∧ json_loads text = Some d
    ∧ Event_new d = Some e.
Proof.
  rewrite get_event_eq. destruct (outcome_at 0 w); [done|].
  unfold cached.
  destruct (redis w !! cache_key_of event_id) as [[text ttl]|] eqn:Hr.
  - destruct (str_truthy text) eqn:Ht.
    + rewrite Event_of_json_eq.
      destruct (json_loads text) as [d|] eqn:Hd; [|done].
      destruct (Event_new d) as [e'|] eqn:He; [|done].
      intros [= -> <-]. by exists text, ttl, d.
    + rewrite get_event_miss_eq.
      destruct (store_lookup _ _) as [[r|x] w2]; [|done].
      rewrite answer_from_eq. destruct r as [doc|]; [|done].
      destruct (dict_truthy _); [|done].
      destruct (Event_new (normalize doc)) as [e'|]; [|done].
      destruct (outcome_at 0 w2); [done|]. intros [= -> <-].
      exists (json_dumps (model_dump e)), CACHE_TTL, (model_dump e).
      simpl. rewrite lookup_insert_eq.
      by rewrite json_dumps_truthy, snapshot_reads_back, Event_new_model_dump.
  - rewrite get_event_miss_eq.
    destruct (store_lookup _ _) as [[r|x] w2]; [|done].
    rewrite answer_from_eq. destruct r as [doc|]; [|done].
    destruct (dict_truthy _); [|done].
    destruct (Event_new (normalize doc)) as [e'|]; [|done].
    destruct (outcome_at 0 w2); [done|]. intros [= -> <-].
    exists (json_dumps (model_dump e)), CACHE_TTL, (model_dump e).
    simpl. rewrite lookup_insert_eq.
    by rewrite json_dumps_truthy, snapshot_reads_back, Event_new_model_dump.
Qed.

(** C2. In a world whose next network call goes through: if the cache holds
    the snapshot of an Event [e] under the key ["event:" + event_id], then
    [get_event] returns [e], its only call is the read of that key (no
    store query, nothing that compares with the store) and it leaves the
    cache and the collection as they were; and in the world left by a
    [get_event] for the same identifier that returned [e] (a miss that
    populated the cache, or a hit), [get_event] returns [e] again in that
    same way. *)
Theorem get_event_cache_hit (event_id : string) (w : World) :
  outcome_at 0 w = None →
  (∀ e ttl,
     redis w !! ("event:" +:+ event_id) = Some (json_dumps (model_dump e), ttl) →
     ∃ w', get_event event_id w = (Ok e, w')
           ∧ calls w' = calls w ++ [RedisGet ("event:" +:+ event_id)]
           ∧ redis w' = redis w
           ∧ events w' = events w)
  ∧ (∀ w0 e,
       get_event event_id w0 = (Ok e, w) →
       ∃ w', get_event event_id w = (Ok e, w')
             ∧ calls w' = calls w ++ [RedisGet ("event:" +:+ event_id)]
             ∧ redis w' = redis w
             ∧ events w' = events w).
Proof.
  intros H0. split.
  - intros e ttl Hr.
    eapply get_event_hit; eauto using json_dumps_truthy, snapshot_reads_back,
      Event_new_model_dump.
  - intros w0 e (text & ttl & d & Hr & Ht & Hd & He)%get_event_leaves_snapshot.
    eapply get_event_hit; eauto.
Qed.

(** A miss that finds a record which validates, and whose write to the
    cache goes through. *)
Lemma get_event_found (event_id : string) (w w2 : World) (doc : dict) (e : Event) :
  outcome_at 0 w = None →
  cached (cache_key_of event_id) w = None →
  store_lookup event_id (after_call (RedisGet (cache_key_of event_id)) w)
  = (Ok (Some doc), w2) →
  Event_new (normalize doc) = Some e →
  outcome_at 0 w2 = None →
  get_event event_id w = (Ok e, populated event_id e w2)
  ∧ redis w2 = redis w ∧ events w2 = events w.
Proof.
  intros H0 Hc Hs He H2.
  rewrite get_event_eq, H0, Hc, get_event_miss_eq, Hs, answer_from_eq.
  apply store_lookup_found in Hs as (_ & _ & -> & Hr & Hev).
  by rewrite He, H2.
Qed.

Lemma normalize_id (doc : dict) (e : Event) :
  Event_new (normalize doc) = Some e →
  match doc !! "_id" with
  | Some v => id e = py_str v
  | None => doc !! "id" = Some (VStr (id e))
  end.
Proof.
  intros He%Event_new_id.
  destruct (doc !! "_id") as [v|] eqn:Hv.
  - apply normalize_native in Hv as [Hv _]. congruence.
  - unfold normalize in He. by rewrite Hv in He.
Qed.

Lemma elapse_expires (key val : string) (m : gmap string (string * Z)) (w : World) :
  redis w = <[key := (val, CACHE_TTL)]> m →
  redis (elapse CACHE_TTL w) !! key = None.
Proof.
  intros Hr. unfold elapse, set_redis. simpl. rewrite Hr.
  apply map_lookup_filter_None. right. intros [v t].
  rewrite lookup_fmap, lookup_insert_eq. simpl. intros [= <- <-]. done.
Qed.

(** C3. When [get_event] misses the cache and the two lookups find a record
    that validates as an Event [e], and the write to the cache goes through,
    [get_event] returns [e]. The identifier of [e] is the text of the
    record's ["_id"] when it has one (its own ["id"] otherwise), and the
    dictionary that is serialised has no ["_id"]. The last call made is the
    write of the serialised [e] under ["event:" + event_id] with 3600
    seconds to live: the cache is as before but for that entry, which is
    gone once 3600 seconds have passed, and the collection is untouched. *)
Theorem get_event_populates (event_id : string) (w w2 : World) (doc : dict)
    (e : Event) :
  outcome_at 0 w = None →
  cached (cache_key_of event_id) w = None →
  store_lookup event_id (after_call (RedisGet (cache_key_of event_id)) w)
  = (Ok (Some doc), w2) →
  Event_new (normalize doc) = Some e →
  outcome_at 0 w2 = None →
  ∃ w',
    get_event event_id w = (Ok e, w')
    ∧ match doc !! "_id" with
      | Some v => id e = py_str v
      | None => doc !! "id" = Some (VStr (id e))
      end
    ∧ model_dump e !! "_id" = None
    ∧ calls w' = calls w2 ++ [RedisSetex (cache_key_of event_id) 3600
                                (json_dumps (model_dump e))]
    ∧ redis w' = <[cache_key_of event_id := (json_dumps (model_dump e), 3600)]>
                   (redis w)
    ∧ events w' = events w
    ∧ redis (elapse 3600 w') !! cache_key_of event_id = None.
Proof.
  intros H0 Hc Hs He H2.
  destruct (get_event_found _ _ _ _ _ H0 Hc Hs He H2) as (Hg & Hr & Hev).
  exists (populated event_id e w2). split; [exact Hg|].
  split; [by apply normalize_id|]. split; [reflexivity|].
  split; [reflexivity|].
  assert (Hp : redis (populated event_id e w2)
               = <[cache_key_of event_id := (json_dumps (model_dump e), 3600)]>
                   (redis w)).
  { simpl. by rewrite Hr. }
  split; [exact Hp|]. split; [exact Hev|].
  by eapply elapse_expires.
Qed.

(** C9. When [get_event] misses the cache, the lookup by [ObjectId] yields
    nothing and the lookup by the string field finds a record whose ["_id"]
    is the twelve-byte [ObjectId] [o], and that record validates as [e] and
    the write to the cache goes through, then [get_event] returns [e] whose
    identifier is the text of [o]; the cache holds the serialised [e], which
    reads back as [e], under ["event:" + event_id]. Unless the requested
    identifier is itself the text of an [ObjectId], the identifier of the
    returned and cached Event is not the requested one. *)
Theorem get_event_fallback_identifier (event_id : string) (w w2 w3 : World)
    (r : option dict) (doc : dict) (o : ObjectId) (e : Event) :
  outcome_at 0 w = None →
  cached (cache_key_of event_id) w = None →
  native_lookup event_id (after_call (RedisGet (cache_key_of event_id)) w)
  = (Ok r, w2) →
  dict_truthy r = false →
  find_one (string_filter event_id) w2 = (Ok (Some doc), w3) →
  doc !! "_id" = Some (VOid o) →
  length o = 12%nat →
  Event_new (normalize doc) = Some e →
  outcome_at 0 w3 = None →
  ∃ w',
    get_event event_id w = (Ok e, w')
    ∧ id e = oid_str o
    ∧ redis w' !! cache_key_of event_id
      = Some (json_dumps (model_dump e), CACHE_TTL)
    ∧ json_loads (json_dumps (model_dump e)) ≫= Event_new = Some e
    ∧ (ObjectId_is_valid event_id = true ∨ id e ≠ event_id).
Proof.
  intros H0 Hc Hn Hr Hf Ho Hlen He H3.
  assert (Hs : store_lookup event_id
                 (after_call (RedisGet (cache_key_of event_id)) w)
               = (Ok (Some doc), w3)).
  { unfold store_lookup, bind. rewrite Hn. unfold string_fallback.
    by rewrite Hr. }
  destruct (get_event_found _ _ _ _ _ H0 Hc Hs He H3) as (Hg & _ & _).
  assert (Hid : id e = oid_str o).
  { apply normalize_id in He. by rewrite Ho in He. }
  exists (populated event_id e w3). split; [exact Hg|]. split; [exact Hid|].
  split; [simpl; apply lookup_insert_eq|].
  split; [rewrite snapshot_reads_back; apply Event_new_model_dump|].
  destruct (ObjectId_is_valid event_id) eqn:Hv; [by left|right].
  intros Heq. rewrite <- Heq, Hid, ObjectId_is_valid_str in Hv; done.
Qed.

(** *** The calls of a miss *)

Lemma native_attempt_eq (event_id : string) (w : World) :
  native_attempt event_id w
  = match native_filter event_id with
    | Some f => find_one f w
    | None => (Ok None, w)
    end.
Proof.
  unfold native_attempt, native_filter, ObjectId_is_valid, ObjectId_new.
  destruct (ObjectId_parse event_id) as [o|] eqn:Ho.
  - assert (str_truthy event_id = true) as ->; [|done].
    destruct event_id; [done|reflexivity].
  - by destruct (str_truthy event_id).
Qed.

Lemma store_lookup_calls (event_id : string) (w : World) :
  calls (snd (store_lookup event_id w)) = calls w ++ lookup_calls event_id w.
Proof.
  rewrite store_lookup_eq. unfold lookup_calls.
  destruct (native_filter event_id) as [f|].
  - destruct (outcome_at 0 w) as [msg|];
      [|destruct (List.find _ (events w)) as [d|]];
      rewrite ?find_one_eq; simpl; by rewrite <- ?app_assoc.
  - by rewrite find_one_eq.
Qed.

Lemma answer_from_calls (event_id : string) (r : option dict) (w : World) :
  ∃ tail,
    calls (snd (answer_from event_id r w)) = calls w ++ tail
    ∧ Forall (λ c, is_store_call c = false) tail.
Proof.
  rewrite answer_from_eq. destruct r as [doc|]; [|by exists []; rewrite app_nil_r].
  destruct (dict_truthy _); [|by exists []; rewrite app_nil_r].
  destruct (Event_new _) as [e|]; [|by exists []; rewrite app_nil_r].
  exists [RedisSetex (cache_key_of event_id) CACHE_TTL (json_dumps (model_dump e))].
  split; [by destruct (outcome_at 0 w)|]. by repeat constructor.
Qed.

Lemma get_event_miss_calls (event_id : string) (w : World) :
  ∃ tail,
    calls (snd (get_event_miss event_id w))
    = calls w ++ lookup_calls event_id w ++ tail
    ∧ Forall (λ c, is_store_call c = false) tail.
Proof.
  rewrite get_event_miss_eq.
  pose proof (store_lookup_calls event_id w) as Hs.
  destruct (store_lookup event_id w) as [[r|x] w2]; simpl in Hs.
  - destruct (answer_from_calls event_id r w2) as (tail & Ht & Hall).
    exists tail. by rewrite Ht, Hs, <- app_assoc.
  - exists []. by rewrite app_nil_r.
Qed.

Lemma native_filter_not_string (event_id : string) (f : dict) :
  native_filter event_id = Some f → f ≠ string_filter event_id.
Proof.
  unfold native_filter, string_filter.
  destruct (ObjectId_parse event_id) as [o|]; [|done].
  intros [= <-] Heq.
  assert (Hl : ({["_id" := VOid o]} : dict) !! "id" = Some (VStr event_id)).
  { rewrite Heq. apply lookup_singleton_eq. }
  by rewrite lookup_singleton_ne in Hl.
Qed.

(** C1. When [get_event] misses the cache (the read goes through and finds
    nothing it can use), the calls it makes after that read are such that:
    every lookup in the collection is either by the string field or by the
    [ObjectId] that the identifier spells, the latter only if
    [ObjectId.is_valid] accepts the identifier; and the lookup by the string
    field is made if and only if the identifier is not a valid [ObjectId]
    (no attempt), or the attempt by [ObjectId] raised, or it returned no
    record. *)
Theorem get_event_lookup_discipline (event_id : string) (w : World) :
  outcome_at 0 w = None →
  cached (cache_key_of event_id) w = None →
  let w1 := after_call (RedisGet (cache_key_of event_id)) w in
  ∃ log,
    calls (snd (get_event event_id w))
    = calls w ++ RedisGet (cache_key_of event_id) :: log
    ∧ (∀ f, FindOne f ∈ log →
         f = string_filter event_id
         ∨ (ObjectId_is_valid event_id = true ∧ native_filter event_id = Some f))
    ∧ (FindOne (string_filter event_id) ∈ log ↔
         ObjectId_is_valid event_id = false
         ∨ (∃ x, fst (native_attempt event_id w1) = Raise x)
         ∨ fst (native_attempt event_id w1) = Ok None).
Proof.
  intros H0 Hc. cbv zeta. rewrite get_event_eq, H0, Hc.
  set (w1 := after_call (RedisGet (cache_key_of event_id)) w).
  destruct (get_event_miss_calls event_id w1) as (tail & Hcalls & Htail).
  exists (lookup_calls event_id w1 ++ tail). split.
  { rewrite Hcalls. simpl. by rewrite <- app_assoc. }
  assert (Hnot : ∀ f, FindOne f ∉ tail).
  { intros f Hin. eapply Forall_forall in Htail; [|exact Hin]. done. }
  rewrite native_attempt_eq. unfold lookup_calls.
  destruct (native_filter event_id) as [f|] eqn:Hf.
  - assert (Hv : ObjectId_is_valid event_id = true).
    { apply native_filter_valid. by rewrite Hf. }
    pose proof (native_filter_not_string _ _ Hf) as Hne.
    rewrite find_one_eq. simpl fst.
    change (events w1) with (events w).
    destruct (outcome_at 0 w1) as [msg|];
      [|destruct (List.find (matches f) (events w)) as [d|]].
    + split.
      * intros g [Hg|Hg]%elem_of_app; [|by apply Hnot in Hg].
        apply elem_of_cons in Hg as [[= ->]|Hg]; [by right|].
        apply list_elem_of_singleton in Hg as [= ->]. by left.
      * split; [intros _; right; left; eauto|].
        intros _. apply elem_of_app. left. apply elem_of_cons. right.
        by apply list_elem_of_singleton.
    + split.
      * intros g [Hg|Hg]%elem_of_app; [|by apply Hnot in Hg].
        apply list_elem_of_singleton in Hg as [= ->]. by right.
      * split.
        -- intros [Hg|Hg]%elem_of_app; [|by apply Hnot in Hg].
           apply list_elem_of_singleton in Hg as [= Hg']. by destruct Hne.
        -- rewrite Hv. intros [?|[[x ?]|?]]; done.
    + split.
      * intros g [Hg|Hg]%elem_of_app; [|by apply Hnot in Hg].
        apply elem_of_cons in Hg as [[= ->]|Hg]; [by right|].
        apply list_elem_of_singleton in Hg as [= ->]. by left.
      * split; [intros _; by right; right|].
        intros _. apply elem_of_app. left. apply elem_of_cons. right.
        by apply list_elem_of_singleton.
  - assert (Hv : ObjectId_is_valid event_id = false).
    { destruct (ObjectId_is_valid event_id) eqn:Hv; [|done].
      apply native_filter_valid in Hv as [? ?]. congruence. }
    split.
    + intros g [Hg|Hg]%elem_of_app; [|by apply Hnot in Hg].
      apply list_elem_of_singleton in Hg as [= ->]. by left.
    + split; [by left|]. intros _. apply elem_of_app. left.
      by apply list_elem_of_singleton.
Qed.

(** *** Found or not found *)

Lemma find_existsb (p : dict → bool) (l : list dict) :
  List.find p l = None ↔ existsb p l = false.
Proof.
  induction l as [|d l IH]; [done|]. simpl. by destruct (p d).
Qed.

Lemma existsb_addressed_by (event_id : string) (l : list dict) :
  existsb (addressed_by event_id) l
  = match native_filter event_id with
    | Some f => existsb (matches f) l
    | None => false
    end || existsb (matches (string_filter event_id)) l.
Proof.
  unfold addressed_by. induction l as [|d l IH].
  - simpl. by destruct (native_filter event_id).
  - simpl. rewrite IH. destruct (native_filter event_id) as [f|]; simpl.
    + by destruct (matches f d), (matches (string_filter event_id) d),
        (existsb (matches f) l),
        (existsb (matches (string_filter event_id)) l).
    + done.
Qed.





End GetEvent.

(** ** DELETE /api/events/{event_id} *)

(** The deletion from the collection, in closed form: the string field is
    tried when [ObjectId] rejects the identifier or the deletion by
    [ObjectId] raises, and in no other case. *)
Lemma delete_from_store_eq (event_id : string) (w : World) :
  delete_from_store event_id w
  = match native_filter event_id with
    | None => delete_one (string_filter event_id) w
    | Some f =>
        match outcome_at 0 w with
        | None => delete_one f w
        | Some _ => delete_one (string_filter event_id) (after_call (DeleteOne f) w)
        end
    end.
Proof.
  unfold delete_from_store, native_filter, ObjectId_new, try_except, bind, raise.
  destruct (ObjectId_parse event_id) as [o|]; [|done].
  unfold ret. rewrite delete_one_eq. by destruct (outcome_at 0 w).
Qed.

Lemma delete_event_eq (event_id : string) (w : World) :
  delete_event event_id w
  = match outcome_at 0 w with
    | Some msg =>
        (Raise (ServiceError msg), after_call (RedisDelete (cache_key_of event_id)) w)
    | None =>
        match delete_from_store event_id
                (set_redis (delete (cache_key_of event_id))
                   (after_call (RedisDelete (cache_key_of event_id)) w)) with
        | (Ok n, w') =>
            if n =? 0 then (Raise (not_found event_id), w')
            else (Ok {["message" := VStr ("Event " +:+ event_id
                                          +:+ " deleted successfully")]}, w')
        | (Raise x, w') => (Raise x, w')
        end
    end.
Proof.
  unfold delete_event, bind. rewrite redis_delete_eq.
  destruct (outcome_at 0 w); [done|].
  destruct (delete_from_store _ _) as [[n|x] w']; [|done].
  by destruct (n =? 0).
Qed.

(** What a [delete_one] leaves of the world it starts from. *)
Lemma delete_one_frame (f : dict) (w : World) :
  calls (snd (delete_one f w)) = calls w ++ [DeleteOne f]
  ∧ redis (snd (delete_one f w)) = redis w.
Proof. rewrite delete_one_eq. by destruct (outcome_at 0 w). Qed.

Lemma delete_from_store_frame (event_id : string) (w : World) :
  ∃ rest,
    calls (snd (delete_from_store event_id w)) = calls w ++ rest
    ∧ Forall (λ c, is_store_call c = true) rest
    ∧ rest ≠ []
    ∧ redis (snd (delete_from_store event_id w)) = redis w.
Proof.
  rewrite delete_from_store_eq.
  destruct (native_filter event_id) as [f|].
  - destruct (outcome_at 0 w).
    + destruct (delete_one_frame (string_filter event_id)
                  (after_call (DeleteOne f) w)) as [Hc Hr].
      exists [DeleteOne f; DeleteOne (string_filter event_id)].
      rewrite Hc, Hr. simpl. rewrite <- app_assoc.
      repeat split; [by repeat constructor|done].
    + destruct (delete_one_frame f w) as [Hc Hr].
      exists [DeleteOne f]. rewrite Hc, Hr.
      repeat split; [by repeat constructor|done].
  - destruct (delete_one_frame (string_filter event_id) w) as [Hc Hr].
    exists [DeleteOne (string_filter event_id)]. rewrite Hc, Hr.
    repeat split; [by repeat constructor|done].
Qed.

(** C6. When the call that removes the cache entry goes through,
    [delete_event] leaves the cache without the entry of the identifier
    whatever happens next and whatever it answers: its first call is that
    removal, and every later call, of which there is at least one, is a
    store deletion. Where the cache had no such entry it is left as it was.
    And if no document answers to the identifier and the following call goes
    through as well, [delete_event] raises the 404 exception for the
    identifier, the cache being invalidated all the same. *)
Theorem delete_event_invalidates_first (event_id : string) (w : World) :
  outcome_at 0 w = None →
  ∃ rest,
    calls (snd (delete_event event_id w))
    = calls w ++ RedisDelete (cache_key_of event_id) :: rest
    ∧ Forall (λ c, is_store_call c = true) rest
    ∧ rest ≠ []
    ∧ redis (snd (delete_event event_id w))
      = delete (cache_key_of event_id) (redis w)
    ∧ redis (snd (delete_event event_id w)) !! cache_key_of event_id = None
    ∧ (redis w !! cache_key_of event_id = None →
       redis (snd (delete_event event_id w)) = redis w)
    ∧ (existsb (addressed_by event_id) (events w) = false →
       outcome_at 1 w = None →
       fst (delete_event event_id w) = Raise (not_found event_id)).
Proof.
  intros H0. rewrite delete_event_eq, H0.
  set (w1 := set_redis (delete (cache_key_of event_id))
               (after_call (RedisDelete (cache_key_of event_id)) w)).
  destruct (delete_from_store_frame event_id w1) as (rest & Hc & Hall & Hne & Hr).
  assert (Hw : ∀ (A : Type) (k : Z → World → Result A * World),
            (∀ n w', snd (k n w') = w') →
            snd (match delete_from_store event_id w1 with
                 | (Ok n, w') => k n w'
                 | (Raise x, w') => (Raise x, w')
                 end) = snd (delete_from_store event_id w1)).
  { intros A k Hk. destruct (delete_from_store event_id w1) as [[n|x] w']; [|done].
    apply Hk. }
  exists rest.
  rewrite (Hw dict (λ n w', if n =? 0 then (Raise (not_found event_id), w')
                            else (Ok _, w')));
    [|by intros n w'; destruct (n =? 0)].
  rewrite Hc, Hr. simpl. rewrite <- app_assoc. simpl.
  repeat split; try done.
  - apply lookup_delete_eq.
  - intros Hnone. by apply delete_id.
  - intros Hex H1. rewrite existsb_addressed_by in Hex.
    apply orb_false_iff in Hex as [Hnat Hstr].
    assert (H1' : outcome_at 0 w1 = None).
    { unfold w1. by rewrite <- H1, <- (outcome_at_after_call 0
        (RedisDelete (cache_key_of event_id)) w). }
    rewrite delete_from_store_eq, H1'.
    destruct (native_filter event_id) as [f|];
      rewrite delete_one_eq, H1'; change (events w1) with (events w).
    + by rewrite Hnat.
    + by rewrite Hstr.
Qed.

(** Deletion by an identifier that reads as an [ObjectId], when the call
    goes through: the string field is not tried, whether or not a document
    was removed. *)
Lemma delete_event_native_only (event_id : string) (f : dict) (w : World) :
  native_filter event_id = Some f →
  outcome_at 0 w = None →
  outcome_at 1 w = None →
  calls (snd (delete_event event_id w))
  = calls w ++ [RedisDelete (cache_key_of event_id); DeleteOne f]
  ∧ (existsb (matches f) (events w) = false →
     fst (delete_event event_id w) = Raise (not_found event_id)
     ∧ events (snd (delete_event event_id w)) = events w).
Proof.
  intros Hf H0 H1. rewrite delete_event_eq, H0, delete_from_store_eq, Hf.
  set (w1 := set_redis _ _).
  assert (H1' : outcome_at 0 w1 = None).
  { unfold w1. by rewrite <- H1, <- (outcome_at_after_call 0
      (RedisDelete (cache_key_of event_id)) w). }
  rewrite H1', delete_one_eq, H1'. change (events w1) with (events w).
  destruct (existsb (matches f) (events w)) eqn:Hex; simpl.
  - split; [by rewrite <- app_assoc|done].
  - split; [by rewrite <- app_assoc|]. intros _. split; [done|].
    clear -Hex. induction (events w) as [|d l IH]; [done|].
    simpl in *. apply orb_false_iff in Hex as [-> Hl]. by rewrite IH.
Qed.

(** C5, at the identifier ["aaaaaaaaaaaaaaaaaaaaaaaa"] in a collection where
    one document carries it in its string field and none as its ["_id"]:
    the identifier reads as an [ObjectId], the deletion by [ObjectId]
    removes nothing, and [delete_event] raises the 404 exception having made
    no deletion by the string field; the document is still there, and
    [get_event] for the same identifier returns it. *)
Theorem delete_event_skips_fallback :
  let event_id := "aaaaaaaaaaaaaaaaaaaaaaaa" in
  let w := Sample.hex_named in
  ∃ f,
    native_filter event_id = Some f
    ∧ existsb (matches f) (events w) = false
    ∧ existsb (matches (string_filter event_id)) (events w) = true
    ∧ fst (delete_event event_id w) = Raise (not_found event_id)
    ∧ calls (snd (delete_event event_id w))
      = [RedisDelete (cache_key_of event_id); DeleteOne f]
    ∧ (DeleteOne (string_filter event_id) ∉ calls (snd (delete_event event_id w)))
    ∧ events (snd (delete_event event_id w)) = events w
    ∧ (∃ e, fst (@get_event codec_json event_id w) = Ok e
            ∧ title e = "Marathon 2025").
Proof.
  intros event_id w.
  assert (Hf : ∃ f, native_filter event_id = Some f) by (eexists; reflexivity).
  destruct Hf as [f Hf]. exists f.
  assert (Hnat : existsb (matches f) (events w) = false).
  { vm_compute in Hf. injection Hf as <-. vm_compute. reflexivity. }
  destruct (delete_event_native_only event_id f w Hf eq_refl eq_refl)
    as [Hcalls Hrest].
  destruct (Hrest Hnat) as [Hres Hev].
  split; [exact Hf|]. split; [exact Hnat|].
  split; [vm_compute; reflexivity|]. split; [exact Hres|].
  split; [exact Hcalls|]. split.
  { rewrite Hcalls. simpl. intros Hin.
    apply elem_of_cons in Hin as [Hin|Hin]; [discriminate Hin|].
    apply list_elem_of_singleton in Hin. injection Hin as Hin.
    by apply (native_filter_not_string _ _ Hf). }
  split; [exact Hev|].
  eexists. split; vm_compute; reflexivity.
Qed.

(** ** POST /api/events *)

Lemma insert_one_eq (doc : dict) (w : World) :
  doc !! "_id" = None →
  outcome_at 0 w = None →
  insert_one doc w
  = if existsb (matches {["_id" := VOid (oid_of_N (oid_counter w))]}) (events w)
    then (Raise DuplicateKeyError,
          mkWorld (redis w) (events w) (tail (outcomes w)) (utcnow w)
            (oid_counter w + 1)%N (calls w ++ [InsertOne doc]))
    else (Ok (VOid (oid_of_N (oid_counter w)),
              <["_id" := VOid (oid_of_N (oid_counter w))]> doc),
          mkWorld (redis w)
            (events w ++ [<["_id" := VOid (oid_of_N (oid_counter w))]> doc])
            (tail (outcomes w)) (utcnow w)
            (oid_counter w + 1)%N (calls w ++ [InsertOne doc])).
Proof.
  intros Hd H0. unfold insert_one. rewrite Hd.
  unfold bind at 1. rewrite call_eq, H0.
  unfold bind, gets, modify, ret, raise, after_call, set_events.
  cbv beta iota. cbn [oid_counter events redis outcomes utcnow calls].
  by destruct (existsb _ (events w)).
Qed.

(** [create_event] in closed form: the insertion raises, or the identifier
    is taken, or the record is stored and the Event returned. *)
Lemma create_event_cases (ev : EventCreate) (w : World) :
  create_event ev w
  = match outcome_at 0 w with
    | Some msg =>
        (Raise (ServiceError msg), after_call (InsertOne (new_record ev w)) w)
    | None =>
        if existsb (matches {["_id" := VOid (oid_of_N (oid_counter w))]}) (events w)
        then (Raise DuplicateKeyError,
              mkWorld (redis w) (events w) (tail (outcomes w)) (utcnow w)
                (oid_counter w + 1)%N (calls w ++ [InsertOne (new_record ev w)]))
        else (Ok (event_of (oid_str (oid_of_N (oid_counter w))) ev),
              mkWorld (redis w) (events w ++ [stored_record ev w])
                (tail (outcomes w)) (utcnow w) (oid_counter w + 1)%N
                (calls w ++ [InsertOne (new_record ev w)]))
    end.
Proof.
  unfold create_event. unfold bind at 1. unfold gets at 1.
  fold (new_record ev w). unfold bind.
  destruct (outcome_at 0 w) as [msg|] eqn:H0.
  - unfold insert_one. unfold bind at 1. by rewrite call_eq, H0.
  - rewrite insert_one_eq by done.
    destruct (existsb _ (events w)); [done|].
    unfold Event_init, ret, stored_record, new_record.
    by destruct ev as [t de da l [c|] [o|]].
Qed.

Lemma create_event_eq (ev : EventCreate) (w : World) :
  outcome_at 0 w = None →
  existsb (matches {["_id" := VOid (oid_of_N (oid_counter w))]}) (events w) = false →
  create_event ev w
  = (Ok (event_of (oid_str (oid_of_N (oid_counter w))) ev),
     mkWorld (redis w) (events w ++ [stored_record ev w]) (tail (outcomes w))
       (utcnow w) (oid_counter w + 1)%N (calls w ++ [InsertOne (new_record ev w)])).
Proof. intros H0 Hfresh. by rewrite create_event_cases, H0, Hfresh. Qed.

Lemma find_app_last (p : dict → bool) (l : list dict) (d : dict) :
  existsb p l = false → p d = true → List.find p (l ++ [d]) = Some d.
Proof.
  intros Hl Hd. induction l as [|x l IH]; simpl in *; [by rewrite Hd|].
  apply orb_false_iff in Hl as [-> Hl]. by apply IH.
Qed.

Section CreateThenGet.
Context `{Json}.

(** C7. In a world where no network call fails and the identifier the
    driver is about to generate is fresh (no document carries it, the cache
    has nothing under its key): [create_event] returns an Event, having
    appended to the collection exactly one record, made of the input fields,
    the current time under ["created_at"] and the new ["_id"]; and
    [get_event] for the identifier of the returned Event then returns that
    same Event, whose fields are those of the input and whose identifier is
    not empty. *)
Theorem create_then_get (ev : EventCreate) (w : World) :
  quiet w →
  existsb (matches {["_id" := VOid (oid_of_N (oid_counter w))]}) (events w) = false →
  cached (cache_key_of (oid_str (oid_of_N (oid_counter w)))) w = None →
  ∃ e w1 w2,
    create_event ev w = (Ok e, w1)
    ∧ events w1 = events w ++ [stored_record ev w]
    ∧ stored_record ev w !! "created_at" = Some (VStr (utcnow w))
    ∧ redis w1 = redis w
    ∧ get_event (id e) w1 = (Ok e, w2)
    ∧ id e ≠ EmptyString
    ∧ title e = c_title ev
    ∧ description e = c_description ev
    ∧ date e = c_date ev
    ∧ location e = c_location ev
    ∧ category e = c_category ev
    ∧ organizer e = c_organizer ev.
Proof.
  intros Hq Hfresh Hcache.
  set (o := oid_of_N (oid_counter w)) in *.
  pose proof (create_event_eq ev w (quiet_outcome_at 0 w Hq) Hfresh) as Hc.
  fold o in Hc.
  set (w1 := mkWorld _ _ _ _ _ _) in Hc.
  assert (Hq1 : quiet w1).
  { unfold quiet, w1. simpl. unfold quiet in Hq.
    destruct (outcomes w); [done|]. by apply Forall_cons in Hq as [_ ?]. }
  set (key := cache_key_of (oid_str o)) in *.
  set (w1' := after_call (RedisGet key) w1).
  assert (Hs : store_lookup (oid_str o) w1' = (Ok (Some (stored_record ev w)),
                 after_call (FindOne {["_id" := VOid o]}) w1')).
  { rewrite store_lookup_eq. unfold native_filter.
    rewrite ObjectId_parse_str by reflexivity.
    rewrite quiet_outcome_at by by apply quiet_after_call.
    change (events w1') with (events w ++ [stored_record ev w]).
    rewrite (find_app_last _ _ (stored_record ev w)); [done|exact Hfresh|].
    rewrite matches_singleton. apply bool_decide_eq_true.
    unfold stored_record. fold o. apply lookup_insert_eq. }
  assert (He : Event_new (normalize (stored_record ev w))
               = Some (event_of (oid_str o) ev)).
  { unfold stored_record. fold o. unfold new_record.
    by destruct ev as [t de da l [c|] [oo|]]. }
  destruct (get_event_found (oid_str o) w1 _ _ _
              (quiet_outcome_at 0 w1 Hq1) Hcache Hs He) as (Hg & _ & _).
  { apply quiet_outcome_at. by do 2 apply quiet_after_call. }
  eexists _, w1, _. split; [exact Hc|].
  split; [reflexivity|]. split; [reflexivity|]. split; [reflexivity|].
  split; [exact Hg|].
  repeat split. intros Hempty. change (oid_str o = EmptyString) in Hempty.
  pose proof (oid_str_truthy o eq_refl) as Ht.
  by rewrite Hempty in Ht.
Qed.

End CreateThenGet.

(** ** The persisted shapes are invariants

    The shapes assumed of the cache and of the collection are kept by every
    handler, whatever the environment does to its calls; a collection filled
    by [create_event] and a cache filled by [get_event] have them. *)

Section Invariants.
Context `{Json}.

Lemma cache_ok_spec (w : World) :
  cache_ok w = true
  ↔ ∀ key text ttl, redis w !! key = Some (text, ttl) → snapshot_ok text = true.
Proof.
  unfold cache_ok. rewrite forallb_forall. split.
  - intros Hall key text ttl Hr. apply (Hall (key, (text, ttl))).
    apply list_elem_of_In, elem_of_map_to_list, Hr.
  - intros Hall [key [text ttl]] Hin. simpl.
    apply list_elem_of_In, elem_of_map_to_list in Hin. eauto.
Qed.

Lemma snapshot_ok_dump (e : Event) :
  snapshot_ok (json_dumps (model_dump e)) = true.
Proof.
  unfold snapshot_ok.
  by rewrite json_dumps_truthy, snapshot_reads_back, Event_new_model_dump.
Qed.

Lemma store_lookup_frame (event_id : string) (w : World) :
  redis (snd (store_lookup event_id w)) = redis w
  ∧ events (snd (store_lookup event_id w)) = events w.
Proof.
  rewrite store_lookup_eq.
  destruct (native_filter event_id) as [f|];
    [destruct (outcome_at 0 w); [|destruct (List.find _ _)]|];
    by rewrite ?find_one_eq.
Qed.

(** [get_event] never touches the collection, and writes at most the
    snapshot of an Event under the key of the identifier. *)
Lemma get_event_frame (event_id : string) (w : World) :
  events (snd (get_event event_id w)) = events w
  ∧ (redis (snd (get_event event_id w)) = redis w
     ∨ ∃ e, redis (snd (get_event event_id w))
            = <[cache_key_of event_id := (json_dumps (model_dump e), CACHE_TTL)]>
                (redis w)).
Proof.
  rewrite get_event_eq. destruct (outcome_at 0 w); [by split; [|left]|].
  destruct (cached _ w) as [text|].
  { rewrite Event_of_json_eq. by split; [|left]. }
  rewrite get_event_miss_eq.
  set (w1 := after_call _ w).
  destruct (store_lookup_frame event_id w1) as [Hr Hev].
  destruct (store_lookup event_id w1) as [[r|x] w2]; simpl in Hr, Hev;
    [|by split; [|left]].
  rewrite answer_from_eq.
  destruct r as [doc|]; [|by split; [|left]].
  destruct (dict_truthy _); [|by split; [|left]].
  destruct (Event_new _) as [e|]; [|by split; [|left]].
  destruct (outcome_at 0 w2); [by split; [|left]|].
  split; [exact Hev|]. right. exists e. simpl. by rewrite Hr.
Qed.

Lemma get_event_keeps_shapes (event_id : string) (w : World) :
  cache_ok w = true → store_ok w = true →
  cache_ok (snd (get_event event_id w)) = true
  ∧ store_ok (snd (get_event event_id w)) = true.
Proof.
  intros Hc Hs. destruct (get_event_frame event_id w) as [Hev Hr].
  split; [|unfold store_ok; by rewrite Hev].
  destruct Hr as [Hr|[e Hr]]; apply cache_ok_spec; rewrite Hr.
  - by apply cache_ok_spec.
  - intros key text ttl Hl. destruct (decide (key = cache_key_of event_id)) as [->|Hne].
    + rewrite lookup_insert_eq in Hl. injection Hl as <- <-.
      apply snapshot_ok_dump.
    + rewrite lookup_insert_ne in Hl by done.
      exact (proj1 (cache_ok_spec w) Hc _ _ _ Hl).
Qed.

Lemma stored_record_ok (ev : EventCreate) (w : World) :
  record_ok (stored_record ev w) = true.
Proof. by destruct ev as [t de da l [c|] [o|]]. Qed.

Lemma create_event_keeps_shapes (ev : EventCreate) (w : World) :
  cache_ok w = true → store_ok w = true →
  cache_ok (snd (create_event ev w)) = true
  ∧ store_ok (snd (create_event ev w)) = true.
Proof.
  intros Hc Hs.
  assert (Hw : redis (snd (create_event ev w)) = redis w
               ∧ (events (snd (create_event ev w)) = events w
                  ∨ events (snd (create_event ev w))
                    = events w ++ [stored_record ev w])).
  { rewrite create_event_cases. destruct (outcome_at 0 w); [by split; [|left]|].
    destruct (existsb _ (events w)); by split; [|eauto]. }
  destruct Hw as [Hr Hev]. split.
  - apply cache_ok_spec. rewrite Hr. by apply cache_ok_spec.
  - unfold store_ok. destruct Hev as [->| ->]; [done|].
    rewrite forallb_app. simpl. by rewrite stored_record_ok, andb_true_r.
Qed.

Lemma remove_first_forallb (p q : dict → bool) (l : list dict) :
  forallb q l = true → forallb q (remove_first p l) = true.
Proof.
  induction l as [|d l IH]; [done|]. simpl.
  intros [Hd Hl]%andb_true_iff.
  destruct (p d); [done|]. simpl. by rewrite Hd, IH.
Qed.

Lemma delete_event_keeps_shapes (event_id : string) (w : World) :
  cache_ok w = true → store_ok w = true →
  cache_ok (snd (delete_event event_id w)) = true
  ∧ store_ok (snd (delete_event event_id w)) = true.
Proof.
  intros Hc Hs.
  assert (Hone : ∀ f w0, store_ok w0 = true →
            redis (snd (delete_one f w0)) = redis w0
            ∧ store_ok (snd (delete_one f w0)) = true).
  { intros f w0 Hs0. rewrite delete_one_eq.
    destruct (outcome_at 0 w0); [done|]. split; [done|].
    by apply remove_first_forallb. }
  assert (Hstore : ∀ w0, store_ok w0 = true →
            redis (snd (delete_from_store event_id w0)) = redis w0
            ∧ store_ok (snd (delete_from_store event_id w0)) = true).
  { intros w0 Hs0. rewrite delete_from_store_eq.
    destruct (native_filter event_id) as [f|]; [|by apply Hone].
    destruct (outcome_at 0 w0); [|by apply Hone].
    apply (Hone (string_filter event_id) (after_call (DeleteOne f) w0) Hs0). }
  rewrite delete_event_eq. destruct (outcome_at 0 w); [done|].
  set (w1 := set_redis _ _).
  destruct (Hstore w1 Hs) as [Hr Hs1].
  assert (Hc1 : cache_ok w1 = true).
  { apply cache_ok_spec. intros key text ttl Hl. simpl in Hl.
    apply lookup_delete_Some in Hl as [_ Hl].
    exact (proj1 (cache_ok_spec w) Hc _ _ _ Hl). }
  assert (Hc2 : ∀ w2, redis w2 = redis w1 → cache_ok w2 = true).
  { intros w2 Hr2. apply cache_ok_spec. rewrite Hr2.
    exact (proj1 (cache_ok_spec w1) Hc1). }
  destruct (delete_from_store event_id w1) as [[n|x] w2];
    cbn [fst snd] in Hr, Hs1.
  - destruct (n =? 0); cbn [fst snd]; split; auto.
  - cbn [fst snd]. split; auto.
Qed.

End Invariants.

(** ** The handlers at work on the sample data *)

Module Examples.
Import Sample.

(** Both services down: the report says so, under a ["healthy"] status. *)
Example health_check_both_down :
  fst (health_check (seeded_with [Some "Connection refused"; Some "timed out"]))
  = Ok (<["status" := VStr "healthy"]>
        (<["redis" := VStr "disconnected: Connection refused"]>
        (<["mongodb" := VStr "disconnected: timed out"]> ∅))).
Proof. vm_compute. reflexivity. Qed.

(** The lookup by [ObjectId] raises and the lookup by the string field
    takes over. *)
Example get_event_native_raises :
  map is_store_call
    (calls (snd (@get_event codec_json "000000000000000000000002"
                   (seeded_with [None; Some "timed out"]))))
  = [false; true; true]
  ∧ fst (@get_event codec_json "000000000000000000000002"
           (seeded_with [None; Some "timed out"]))
    = Raise (not_found "000000000000000000000002").
Proof. split; vm_compute; reflexivity. Qed.

(** A cache entry whose text is empty is no hit, and one whose text is not
    json makes [get_event] raise. *)
Example get_event_empty_entry :
  let w := mkWorld {["event:1" := (EmptyString, 60)]} (events seeded) []
             (utcnow seeded) (oid_counter seeded) [] in
  fst (@get_event codec_json "1" w) = Ok tech_event.
Proof. vm_compute. reflexivity. Qed.

Example get_event_unreadable_entry :
  let w := mkWorld {["event:1" := ("tech", 60)]} (events seeded) []
             (utcnow seeded) (oid_counter seeded) [] in
  fst (@get_event codec_json "1" w) = Raise JSONDecodeError.
Proof. vm_compute. reflexivity. Qed.

(** Deleting by the string field, for an identifier [ObjectId] rejects. *)
Example delete_event_seeded :
  fst (delete_event "2" seeded)
  = Ok {["message" := VStr "Event 2 deleted successfully"]}
  ∧ length (events (snd (delete_event "2" seeded))) = 1%nat.
Proof. split; vm_compute; reflexivity. Qed.

(** The sample worlds have the persisted shapes. *)
Example seeded_shapes :
  @cache_ok codec_json seeded = true ∧ store_ok seeded = true
  ∧ store_ok hex_named = true.
Proof. repeat split; vm_compute; reflexivity. Qed.

End Examples.

(** ** The theorems at work on the sample data *)

Module Witness.
Import Sample.

Local Abbreviation get := (@get_event codec_json).

(** C1 at ["1"], which is not the text of an [ObjectId]: the lookup by the
    string field is among the calls. *)
Lemma get_event_lookup_discipline_witness :
  ∃ log,
    calls (snd (get "1" seeded)) = RedisGet "event:1" :: log
    ∧ FindOne (string_filter "1") ∈ log.
Proof.
  destruct (@get_event_lookup_discipline codec_json "1" seeded eq_refl eq_refl)
    as (log & Hcalls & _ & Hiff).
  exists log. split; [exact Hcalls|]. apply Hiff. left. reflexivity.
Defined.

(** C2 in the world a first [get_event] for ["1"] leaves: the snapshot is
    under ["event:1"], and the second [get_event] reads that key and nothing
    else. *)
Lemma get_event_cache_hit_witness :
  redis (snd (get "1" seeded)) !! "event:1"
  = Some (@json_dumps codec_json (model_dump tech_event), 3600)
  ∧ ∃ w', get "1" (snd (get "1" seeded)) = (Ok tech_event, w')
          ∧ calls w' = calls (snd (get "1" seeded)) ++ [RedisGet "event:1"]
          ∧ redis w' = redis (snd (get "1" seeded))
          ∧ events w' = events (snd (get "1" seeded)).
Proof.
  assert (Hr : redis (snd (get "1" seeded)) !! "event:1"
               = Some (@json_dumps codec_json (model_dump tech_event), 3600))
    by (vm_compute; reflexivity).
  split; [exact Hr|].
  destruct (@get_event_cache_hit codec_json "1" (snd (get "1" seeded)) eq_refl)
    as [Hhit _].
  exact (Hhit tech_event 3600 Hr).
Defined.

(** C3 at ["1"]: found by its string field, returned under its native
    identifier. *)
Lemma get_event_populates_witness :
  ∃ w', get "1" seeded = (Ok tech_event, w')
        ∧ redis w' !! "event:1"
          = Some (@json_dumps codec_json (model_dump tech_event), 3600).
Proof.
  destruct (@get_event_populates codec_json "1" seeded
              (snd (store_lookup "1" (after_call (RedisGet "event:1") seeded)))
              tech_stored tech_event)
    as (w' & Hg & _ & _ & _ & Hr & _);
    [reflexivity|reflexivity|vm_compute; reflexivity|vm_compute; reflexivity
    |vm_compute; reflexivity|].
  exists w'. split; [exact Hg|]. rewrite Hr. apply lookup_insert_eq.
Defined.


(** C6 at ["7"]. *)
Lemma delete_event_invalidates_first_witness :
  fst (delete_event "7" seeded) = Raise (not_found "7")
  ∧ redis (snd (delete_event "7" seeded)) !! "event:7" = None.
Proof.
  destruct (delete_event_invalidates_first "7" seeded eq_refl)
    as (rest & _ & _ & _ & _ & Hgone & _ & Hnf).
  split; [exact (Hnf eq_refl eq_refl)|exact Hgone].
Defined.

(** C7 for the workshop of seed_db.py, created in the seeded collection. *)
Lemma create_then_get_witness :
  ∃ e w1 w2,
    create_event workshop seeded = (Ok e, w1)
    ∧ get (id e) w1 = (Ok e, w2)
    ∧ title e = "AI Workshop Bengaluru".
Proof.
  destruct (@create_then_get codec_json workshop seeded
              (List.Forall_nil _) eq_refl eq_refl)
    as (e & w1 & w2 & Hc & _ & _ & _ & Hg & _ & Ht & _).
  exists e, w1, w2. split; [exact Hc|]. split; [exact Hg|exact Ht].
Defined.

(** C9 at ["1"]: the Event cached under ["event:1"] is identified by the
    text of the native identifier. *)
Lemma get_event_fallback_identifier_witness :
  ∃ w', get "1" seeded = (Ok tech_event, w')
        ∧ id tech_event ≠ "1".
Proof.
  destruct (@get_event_fallback_identifier codec_json "1" seeded
              (after_call (RedisGet "event:1") seeded)
              (after_call (FindOne (string_filter "1"))
                 (after_call (RedisGet "event:1") seeded))
              None tech_stored (oid_of_N 1) tech_event)
    as (w' & Hg & _ & _ & _ & [Hv|Hne]);
    [reflexivity|reflexivity|reflexivity|reflexivity|vm_compute; reflexivity
    |reflexivity|reflexivity|vm_compute; reflexivity|reflexivity| |].
  - discriminate Hv.
  - exists w'. split; [exact Hg|exact Hne].
Defined.

End Witness.

(** * Further properties of the code *)

(** ** ObjectId: distinct states of the generator, distinct identifiers *)

Lemma byte_at_value (n i : N) :
  Byte.to_N (byte_at n i) = ((n / 256 ^ i) mod 256)%N.
Proof.
  unfold byte_at.
  pose proof (Byte.to_of_N_option_map ((n / 256 ^ i) mod 256)) as Hb.
  assert (Hlt : ((n / 256 ^ i) mod 256 < 256)%N) by (apply N.mod_lt; lia).
  destruct (Byte.of_N _) as [b|]; simpl in Hb.
  - destruct (N.leb_spec ((n / 256 ^ i) mod 256) 255); [congruence|lia].
  - destruct (N.leb_spec ((n / 256 ^ i) mod 256) 255); [done|lia].
Qed.

Lemma digits_step (n i i' k k' : N) :
  i' = (i + 1)%N → k' = (k + 1)%N →
  ((n / 256 ^ i) mod 256 ^ k'
   = ((n / 256 ^ i') mod 256 ^ k) * 256 + (n / 256 ^ i) mod 256)%N.
Proof.
  intros -> ->.
  rewrite N.pow_add_r, N.pow_1_r, (N.mul_comm (256 ^ k) 256).
  rewrite N.Div0.mod_mul_r.
  rewrite N.pow_add_r, N.pow_1_r, <- N.Div0.div_div. lia.
Qed.

Lemma oid_value_of_N (n : N) : oid_value (oid_of_N n) = (n mod 256 ^ 12)%N.
Proof.
  unfold oid_value, oid_of_N. simpl fold_left. rewrite !byte_at_value.
  replace (n mod 256 ^ 12)%N with ((n / 256 ^ 0) mod 256 ^ 12)%N
    by (by rewrite N.pow_0_r, N.div_1_r).
  rewrite (digits_step n 0 1 11 12), (digits_step n 1 2 10 11),
    (digits_step n 2 3 9 10), (digits_step n 3 4 8 9), (digits_step n 4 5 7 8),
    (digits_step n 5 6 6 7), (digits_step n 6 7 5 6), (digits_step n 7 8 4 5),
    (digits_step n 8 9 3 4), (digits_step n 9 10 2 3), (digits_step n 10 11 1 2),
    (digits_step n 11 12 0 1) by reflexivity.
  rewrite (N.pow_0_r 256), N.mod_1_r. lia.
Qed.

Lemma oid_of_N_inj (n m : N) :
  (n < 256 ^ 12)%N → (m < 256 ^ 12)%N → oid_of_N n = oid_of_N m → n = m.
Proof.
  intros Hn Hm Heq. apply (f_equal oid_value) in Heq.
  rewrite !oid_value_of_N, !N.mod_small in Heq; done.
Qed.

(** ** The get path when every call goes through *)

Lemma quiet_same (w w' : World) : outcomes w' = outcomes w → quiet w → quiet w'.
Proof. unfold quiet. by intros ->. Qed.

Lemma found_truthy (event_id : string) (l : list dict) (d : dict) :
  found event_id l = Some d →
  d ∈ l ∧ addressed_by event_id d = true ∧ dict_truthy (Some d) = true.
Proof.
  unfold found, addressed_by, native_filter, string_filter.
  destruct (ObjectId_parse event_id) as [o|].
  - destruct (List.find _ l) as [d'|] eqn:Hn.
    + intros [= <-]. apply find_matches in Hn as [Hin Hm]. rewrite Hm.
      split; [exact Hin|]. split; [done|]. exact (matches_nonempty _ _ _ Hm).
    + intros [Hin Hm]%find_matches. rewrite Hm, orb_true_r.
      split; [exact Hin|]. split; [done|]. exact (matches_nonempty _ _ _ Hm).
  - intros [Hin Hm]%find_matches. rewrite Hm.
    split; [exact Hin|]. split; [done|]. exact (matches_nonempty _ _ _ Hm).
Qed.

Lemma found_none (event_id : string) (l : list dict) :
  found event_id l = None ↔ existsb (addressed_by event_id) l = false.
Proof.
  rewrite existsb_addressed_by. unfold found.
  destruct (native_filter event_id) as [f|].
  - destruct (List.find (matches f) l) as [d|] eqn:Hn.
    + split; [done|]. intros [Hf _]%orb_false_iff.
      apply find_existsb in Hf. congruence.
    + rewrite (proj1 (find_existsb _ _) Hn), orb_false_l. apply find_existsb.
  - rewrite orb_false_l. apply find_existsb.
Qed.

Lemma store_lookup_quiet (event_id : string) (w : World) :
  quiet w →
  ∃ w', store_lookup event_id w = (Ok (found event_id (events w)), w')
        ∧ quiet w' ∧ redis w' = redis w ∧ events w' = events w.
Proof.
  intros Hq. rewrite store_lookup_eq. unfold found.
  destruct (native_filter event_id) as [f|].
  - rewrite (quiet_outcome_at 0 w Hq).
    destruct (List.find (matches f) (events w)) as [d|].
    + eexists. split; [reflexivity|]. split; [by apply quiet_after_call|done].
    + rewrite find_one_eq, quiet_outcome_at by by apply quiet_after_call.
      eexists. split; [reflexivity|].
      split; [by do 2 apply quiet_after_call|done].
  - rewrite find_one_eq, (quiet_outcome_at 0 w Hq).
    eexists. split; [reflexivity|]. split; [by apply quiet_after_call|done].
Qed.

Section GetQuiet.
Context `{Json}.

(** [get_event] on a miss, every call going through: the answer is read off
    the collection, the collection is left alone, and the cache gains the
    snapshot of the answer when there is one. *)
Lemma get_event_quiet (event_id : string) (w : World) :
  quiet w →
  cached (cache_key_of event_id) w = None →
  ∃ w', get_event event_id w = (get_result event_id (events w), w')
        ∧ quiet w'
        ∧ events w' = events w
        ∧ redis w' = match get_result event_id (events w) with
                     | Ok e => <[cache_key_of event_id :=
                                   (json_dumps (model_dump e), CACHE_TTL)]> (redis w)
                     | Raise _ => redis w
                     end.
Proof.
  intros Hq Hc. rewrite get_event_eq, (quiet_outcome_at 0 w Hq), Hc.
  rewrite get_event_miss_eq.
  destruct (store_lookup_quiet event_id
              (after_call (RedisGet (cache_key_of event_id)) w))
    as (w2 & -> & Hq2 & Hr2 & He2); [by apply quiet_after_call|].
  change (events (after_call (RedisGet (cache_key_of event_id)) w))
    with (events w).
  rewrite answer_from_eq. unfold get_result.
  destruct (found event_id (events w)) as [d|] eqn:Hf.
  - apply found_truthy in Hf as (_ & _ & ->).
    destruct (Event_new (normalize d)) as [e|].
    + rewrite (quiet_outcome_at 0 w2 Hq2). eexists. split; [reflexivity|].
      split; [by apply (quiet_same (after_call
                 (RedisSetex (cache_key_of event_id) CACHE_TTL
                    (json_dumps (model_dump e))) w2)), quiet_after_call|].
      split; [exact He2|]. simpl. by rewrite Hr2.
    + by exists w2.
  - by exists w2.
Qed.

End GetQuiet.

(** ** GET /api/events *)




(** ** What the handlers leave alone *)

Lemma remove_first_elem_of (p : dict → bool) (l : list dict) (d : dict) :
  d ∈ remove_first p l → d ∈ l.
Proof.
  induction l as [|x l IH]; [done|]. simpl. destruct (p x).
  - intros Hd. by apply elem_of_cons; right.
  - intros [->|Hd]%elem_of_cons; apply elem_of_cons; [by left|right; auto].
Qed.

Lemma remove_first_length (p : dict → bool) (l : list dict) :
  (length l ≤ length (remove_first p l) + 1)%nat.
Proof.
  induction l as [|x l IH]; [simpl; lia|]. simpl.
  destruct (p x); simpl; lia.
Qed.

(** The world [delete_event] leaves, whatever its calls meet: the cache as
    it was or without the entry of the identifier, the collection as it was
    or without the first document one filter matches. *)
Lemma delete_event_world (event_id : string) (w : World) :
  (redis (snd (delete_event event_id w)) = redis w
   ∨ redis (snd (delete_event event_id w))
     = delete (cache_key_of event_id) (redis w))
  ∧ (events (snd (delete_event event_id w)) = events w
     ∨ ∃ f, events (snd (delete_event event_id w))
            = remove_first (matches f) (events w)).
Proof.
  rewrite delete_event_eq. destruct (outcome_at 0 w); [by split; left|].
  set (w1 := set_redis _ _).
  assert (Hone : ∀ f w0, redis w0 = redis w1 → events w0 = events w →
            redis (snd (delete_one f w0)) = redis w1
            ∧ (events (snd (delete_one f w0)) = events w
               ∨ ∃ g, events (snd (delete_one f w0))
                      = remove_first (matches g) (events w))).
  { intros f w0 Hr He. rewrite delete_one_eq.
    destruct (outcome_at 0 w0); simpl; rewrite ?Hr, ?He; split; eauto. }
  assert (Hstore : redis (snd (delete_from_store event_id w1)) = redis w1
            ∧ (events (snd (delete_from_store event_id w1)) = events w
               ∨ ∃ g, events (snd (delete_from_store event_id w1))
                      = remove_first (matches g) (events w))).
  { rewrite delete_from_store_eq.
    destruct (native_filter event_id) as [f|]; [|by apply Hone].
    destruct (outcome_at 0 w1); by apply Hone. }
  destruct Hstore as [Hr He].
  destruct (delete_from_store event_id w1) as [[n|x] w2]; cbn [snd] in Hr, He.
  - destruct (n =? 0); cbn [snd]; (split; [right; exact Hr|exact He]).
  - cbn [snd]. split; [right; exact Hr|exact He].
Qed.

Section Frames.
Context `{Json}.

(** X2. In every world and whatever its calls meet: [get_event] leaves the
    collection as it is and the cache as it is outside the key of its
    identifier; [create_event] leaves the cache as it is and removes no
    document; [delete_event] leaves the cache as it is outside the key of
    its identifier, adds no document and removes at most one. *)
Theorem handlers_frame (event_id : string) (ev : EventCreate) (w : World) :
  events (snd (get_event event_id w)) = events w
  ∧ (∀ key, key ≠ cache_key_of event_id →
       redis (snd (get_event event_id w)) !! key = redis w !! key)
  ∧ redis (snd (create_event ev w)) = redis w
  ∧ (∀ d, d ∈ events w → d ∈ events (snd (create_event ev w)))
  ∧ (∀ key, key ≠ cache_key_of event_id →
       redis (snd (delete_event event_id w)) !! key = redis w !! key)
  ∧ (∀ d, d ∈ events (snd (delete_event event_id w)) → d ∈ events w)
  ∧ (length (events w) ≤ length (events (snd (delete_event event_id w))) + 1)%nat.
Proof.
  destruct (get_event_frame event_id w) as [Hge Hgr].
  destruct (delete_event_world event_id w) as [Hdr Hde].
  split; [exact Hge|]. split.
  { intros key Hne. destruct Hgr as [->|[e ->]]; [done|].
    by rewrite lookup_insert_ne. }
  assert (Hc : redis (snd (create_event ev w)) = redis w
               ∧ ∀ d, d ∈ events w → d ∈ events (snd (create_event ev w))).
  { rewrite create_event_cases. destruct (outcome_at 0 w); [done|].
    destruct (existsb _ (events w)); [done|]. split; [done|].
    intros d Hd. simpl. apply elem_of_app. by left. }
  destruct Hc as [Hcr Hce].
  split; [exact Hcr|]. split; [exact Hce|]. split.
  { intros key Hne. destruct Hdr as [->| ->]; [done|].
    by rewrite lookup_delete_ne. }
  split.
  - intros d. destruct Hde as [->|[f ->]]; [done|].
    apply remove_first_elem_of.
  - destruct Hde as [->|[f ->]]; [lia|]. apply remove_first_length.
Qed.

(** X3. The persisted shapes are kept by the three handlers: from a world
    whose cache entries are snapshots of Events and whose records carry an
    [ObjectId] and validate, each of [get_event], [create_event] and
    [delete_event] leads to such a world, whatever its calls meet. *)
Theorem handlers_keep_shapes (event_id : string) (ev : EventCreate) (w : World) :
  cache_ok w = true →
  store_ok w = true →
  (cache_ok (snd (get_event event_id w)) = true
   ∧ store_ok (snd (get_event event_id w)) = true)
  ∧ (cache_ok (snd (create_event ev w)) = true
     ∧ store_ok (snd (create_event ev w)) = true)
  ∧ (cache_ok (snd (delete_event event_id w)) = true
     ∧ store_ok (snd (delete_event event_id w)) = true).
Proof.
  intros Hc Hs. split; [|split].
  - by apply get_event_keeps_shapes.
  - by apply create_event_keeps_shapes.
  - by apply delete_event_keeps_shapes.
Qed.

End Frames.

(** ** DELETE, then GET *)

Lemma delete_event_quiet (event_id : string) (w : World) :
  quiet w →
  ∃ w', delete_event event_id w
        = (if existsb (matches (deletion_filter event_id)) (events w)
           then Ok (deleted_message event_id)
           else Raise (not_found event_id), w')
        ∧ quiet w'
        ∧ redis w' = delete (cache_key_of event_id) (redis w)
        ∧ events w' = remove_first (matches (deletion_filter event_id)) (events w).
Proof.
  intros Hq. rewrite delete_event_eq, (quiet_outcome_at 0 w Hq).
  set (w1 := set_redis _ _).
  assert (Hq1 : quiet w1).
  { apply (quiet_same (after_call (RedisDelete (cache_key_of event_id)) w));
      [done|by apply quiet_after_call]. }
  assert (Hd : delete_from_store event_id w1
               = delete_one (deletion_filter event_id) w1).
  { rewrite delete_from_store_eq, (quiet_outcome_at 0 w1 Hq1).
    unfold deletion_filter. by destruct (native_filter event_id). }
  rewrite Hd, delete_one_eq, (quiet_outcome_at 0 w1 Hq1).
  change (events w1) with (events w).
  assert (Hq2 : quiet (set_events
                  (remove_first (matches (deletion_filter event_id)))
                  (after_call (DeleteOne (deletion_filter event_id)) w1))).
  { apply (quiet_same (after_call (DeleteOne (deletion_filter event_id)) w1));
      [done|by apply quiet_after_call]. }
  destruct (existsb _ (events w)); simpl; eexists; (split; [reflexivity|]);
    by split.
Qed.

Lemma deletion_filter_addressed (event_id : string) (d : dict) :
  matches (deletion_filter event_id) d = true → addressed_by event_id d = true.
Proof.
  unfold deletion_filter, addressed_by.
  destruct (native_filter event_id); intros ->; [done|apply orb_true_r].
Qed.

Lemma filter_length_remove_first (p q : dict → bool) (l : list dict) :
  (∀ d, p d = true → q d = true) →
  existsb p l = true →
  length (List.filter q l) = S (length (List.filter q (remove_first p l))).
Proof.
  intros Hpq. induction l as [|x l IH]; [done|]. simpl.
  destruct (p x) eqn:Hp.
  - intros _. by rewrite (Hpq x Hp).
  - simpl. intros Hl. destruct (q x); simpl; by rewrite IH.
Qed.

Lemma filter_length_existsb (q : dict → bool) (l : list dict) :
  length (List.filter q l) = 0%nat → existsb q l = false.
Proof.
  induction l as [|x l IH]; [done|]. simpl. destruct (q x); [done|]. exact IH.
Qed.

Lemma cached_deleted (key : string) (w w' : World) :
  redis w' = delete key (redis w) → cached key w' = None.
Proof. intros Hr. unfold cached. by rewrite Hr, lookup_delete_eq. Qed.

Section DeleteThenGet.
Context `{Json}.

(** X4. When no call fails and exactly one document answers to the
    identifier, a [delete_event] that succeeds is followed by a [get_event]
    that raises the 404 for that identifier: nothing is left under the
    identifier in the cache or in the collection. *)
Theorem delete_then_get_not_found (event_id : string) (w w1 : World) (r : dict) :
  quiet w →
  length (List.filter (addressed_by event_id) (events w)) = 1%nat →
  delete_event event_id w = (Ok r, w1) →
  fst (get_event event_id w1) = Raise (not_found event_id)
  ∧ existsb (addressed_by event_id) (events w1) = false
  ∧ redis w1 !! cache_key_of event_id = None
  ∧ length (events w) = S (length (events w1)).
Proof.
  intros Hq Hone Hd.
  destruct (delete_event_quiet event_id w Hq) as (w' & Hd' & Hq' & Hr' & He').
  rewrite Hd in Hd'.
  destruct (existsb (matches (deletion_filter event_id)) (events w)) eqn:Hex;
    [|discriminate Hd'].
  injection Hd' as _ <-.
  assert (Hgone : existsb (addressed_by event_id) (events w1) = false).
  { apply filter_length_existsb. rewrite He'.
    pose proof (filter_length_remove_first _ (addressed_by event_id) (events w)
                  (deletion_filter_addressed event_id) Hex) as Hlen.
    rewrite Hone in Hlen. by injection Hlen as <-. }
  destruct (get_event_quiet event_id w1 Hq' (cached_deleted _ _ _ Hr'))
    as (w2 & -> & _).
  unfold get_result. rewrite (proj2 (found_none _ _) Hgone).
  split; [done|]. split; [exact Hgone|].
  split; [by rewrite Hr', lookup_delete_eq|].
  rewrite He'. clear -Hex. induction (events w) as [|x l IH]; [done|].
  simpl in *. destruct (matches _ x); [done|]. simpl. by rewrite IH.
Qed.

(** X5. A record created and then deleted by the identifier [create_event]
    returned leaves the collection exactly as it was before the creation,
    when no call fails and the generated identifier is fresh. *)
Theorem create_then_delete (ev : EventCreate) (w : World) :
  quiet w →
  existsb (matches {["_id" := VOid (oid_of_N (oid_counter w))]}) (events w) = false →
  ∃ e w1 w2,
    create_event ev w = (Ok e, w1)
    ∧ delete_event (id e) w1 = (Ok (deleted_message (id e)), w2)
    ∧ events w2 = events w
    ∧ redis w2 = delete (cache_key_of (id e)) (redis w).
Proof.
  intros Hq Hfresh. set (o := oid_of_N (oid_counter w)) in *.
  pose proof (create_event_eq ev w (quiet_outcome_at 0 w Hq) Hfresh) as Hc.
  fold o in Hc. set (w1 := mkWorld _ _ _ _ _ _) in Hc.
  assert (Hq1 : quiet w1).
  { unfold quiet, w1. simpl. unfold quiet in Hq.
    destruct (outcomes w); [done|]. by apply Forall_cons in Hq as [_ ?]. }
  destruct (delete_event_quiet (oid_str o) w1 Hq1) as (w2 & Hd & _ & Hr & He).
  assert (Hf : deletion_filter (oid_str o) = {["_id" := VOid o]}).
  { unfold deletion_filter, native_filter.
    by rewrite ObjectId_parse_str by reflexivity. }
  rewrite Hf in Hd, He.
  assert (Hm : matches {["_id" := VOid o]} (stored_record ev w) = true).
  { rewrite matches_singleton. apply bool_decide_eq_true.
    unfold stored_record. fold o. apply lookup_insert_eq. }
  change (events w1) with (events w ++ [stored_record ev w]) in Hd, He.
  rewrite existsb_app in Hd. simpl in Hd. rewrite Hm, orb_true_r in Hd.
  exists (event_of (oid_str o) ev), w1, w2.
  split; [exact Hc|]. split; [exact Hd|]. split; [|exact Hr].
  rewrite He. clear -Hfresh Hm. induction (events w) as [|x l IH].
  - simpl. by rewrite Hm.
  - simpl in *. apply orb_false_iff in Hfresh as [-> Hl]. by rewrite IH.
Qed.

End DeleteThenGet.

(** ** The cache over time and across identifiers *)

Lemma cache_key_of_inj (a b : string) : cache_key_of a = cache_key_of b → a = b.
Proof. unfold cache_key_of. intros Heq. by simplify_eq. Qed.

Lemma elapse_lookup (dt : Z) (key : string) (w : World) :
  redis (elapse dt w) !! key
  = match redis w !! key with
    | Some (val, ttl) => if 0 <? ttl - dt then Some (val, ttl - dt) else None
    | None => None
    end.
Proof.
  unfold elapse, set_redis. simpl.
  destruct (redis w !! key) as [[val ttl]|] eqn:Hr.
  - destruct (0 <? ttl - dt) eqn:Ht.
    + apply map_lookup_filter_Some. by rewrite lookup_fmap, Hr.
    + apply map_lookup_filter_None. right. intros [v t].
      rewrite lookup_fmap, Hr. simpl. intros [= <- <-]. simpl. congruence.
  - apply map_lookup_filter_None. left. by rewrite lookup_fmap, Hr.
Qed.

Lemma elapse_frame (dt : Z) (w : World) :
  events (elapse dt w) = events w ∧ outcomes (elapse dt w) = outcomes w
  ∧ calls (elapse dt w) = calls w.
Proof. done. Qed.

Section CacheOverTime.
Context `{Json}.

(** X6. [delete_event] invalidates the key of the identifier it is given
    and no other: an Event cached under another identifier is still served
    from the cache after the deletion, whether or not the record it was made
    from is the one deleted. *)
Theorem delete_leaves_other_keys (event_id other : string) (e : Event) (ttl : Z)
    (w : World) :
  other ≠ event_id →
  redis w !! cache_key_of other = Some (json_dumps (model_dump e), ttl) →
  outcome_at 0 (snd (delete_event event_id w)) = None →
  served_from_cache other e (snd (delete_event event_id w)).
Proof.
  intros Hne Hr H0.
  assert (Hkey : cache_key_of other ≠ cache_key_of event_id).
  { intros Heq. by apply Hne, cache_key_of_inj. }
  assert (Hr' : redis (snd (delete_event event_id w)) !! cache_key_of other
                = Some (json_dumps (model_dump e), ttl)).
  { destruct (delete_event_world event_id w) as [[->| ->] _]; [done|].
    by rewrite lookup_delete_ne. }
  eapply get_event_hit; eauto using json_dumps_truthy, snapshot_reads_back,
    Event_new_model_dump.
Qed.

(** A miss that returned [e], every call going through, in terms of the
    collection and the cache. *)
Lemma get_event_miss_ok (event_id : string) (w w1 : World) (e : Event) :
  quiet w →
  cached (cache_key_of event_id) w = None →
  get_event event_id w = (Ok e, w1) →
  get_result event_id (events w) = Ok e
  ∧ quiet w1
  ∧ events w1 = events w
  ∧ redis w1 = <[cache_key_of event_id := (json_dumps (model_dump e), CACHE_TTL)]>
                 (redis w).
Proof.
  intros Hq Hc Hg.
  destruct (get_event_quiet event_id w Hq Hc) as (w' & Hg' & Hq' & He' & Hr').
  rewrite Hg in Hg'. injection Hg' as Hres <-.
  rewrite <- Hres in Hr'. by rewrite <- Hres.
Qed.

(** X7. Once the 3600 seconds of an entry written by a miss have passed,
    [get_event] for the same identifier misses again, reads the collection
    again and, the collection being what it was, returns the same Event and
    writes the same entry with 3600 seconds anew. *)
Theorem refetch_after_expiry (event_id : string) (w w1 : World) (e : Event) :
  quiet w →
  cached (cache_key_of event_id) w = None →
  get_event event_id w = (Ok e, w1) →
  ∃ w2 log,
    get_event event_id (elapse CACHE_TTL w1) = (Ok e, w2)
    ∧ cached (cache_key_of event_id) (elapse CACHE_TTL w1) = None
    ∧ calls w2 = calls w1 ++ RedisGet (cache_key_of event_id) :: log
    ∧ Exists (λ c, is_store_call c = true) log
    ∧ redis w2 !! cache_key_of event_id
      = Some (json_dumps (model_dump e), CACHE_TTL).
Proof.
  intros Hq Hc Hg.
  destruct (get_event_miss_ok _ _ _ _ Hq Hc Hg) as (Hres & Hq1 & He1 & Hr1).
  set (w1' := elapse CACHE_TTL w1).
  assert (Hq1' : quiet w1') by exact Hq1.
  assert (Hc1' : cached (cache_key_of event_id) w1' = None).
  { unfold cached, w1'. by rewrite (elapse_expires _ _ _ _ Hr1). }
  destruct (get_event_quiet event_id w1' Hq1' Hc1')
    as (w2 & Hg2 & _ & _ & Hr2).
  change (events w1') with (events w1) in Hg2, Hr2.
  rewrite He1, Hres in Hg2, Hr2.
  pose proof (get_event_eq event_id w1') as Heq.
  rewrite (quiet_outcome_at 0 w1' Hq1'), Hc1' in Heq.
  destruct (get_event_miss_calls event_id
              (after_call (RedisGet (cache_key_of event_id)) w1'))
    as (tail & Hcalls & _).
  rewrite <- Heq, Hg2 in Hcalls. cbn [snd] in Hcalls.
  exists w2, (lookup_calls event_id
                (after_call (RedisGet (cache_key_of event_id)) w1') ++ tail).
  split; [exact Hg2|]. split; [exact Hc1'|]. split.
  { rewrite Hcalls. simpl. by rewrite <- app_assoc. }
  split; [|by rewrite Hr2, lookup_insert_eq].
  apply Exists_app. left. unfold lookup_calls.
  destruct (native_filter event_id) as [f|]; [|by left].
  destruct (outcome_at 0 _); [by left|]. destruct (List.find _ _); by left.
Qed.

(** X8. A hit does not renew the entry. After a miss wrote the entry, a
    [get_event] made [t] seconds later, with [t] below 3600, is served from
    the cache and leaves the entry with what remains of its 3600 seconds:
    the entry is gone 3600 seconds after it was written, not after it was
    last read. *)
Theorem hits_do_not_renew (event_id : string) (w w1 : World) (e : Event) (t : Z) :
  quiet w →
  cached (cache_key_of event_id) w = None →
  get_event event_id w = (Ok e, w1) →
  0 ≤ t < CACHE_TTL →
  ∃ w2,
    get_event event_id (elapse t w1) = (Ok e, w2)
    ∧ calls w2 = calls w1 ++ [RedisGet (cache_key_of event_id)]
    ∧ redis w2 !! cache_key_of event_id
      = Some (json_dumps (model_dump e), CACHE_TTL - t)
    ∧ redis (elapse (CACHE_TTL - t) w2) !! cache_key_of event_id = None.
Proof.
  intros Hq Hc Hg Ht.
  destruct (get_event_miss_ok _ _ _ _ Hq Hc Hg) as (_ & Hq1 & _ & Hr1).
  assert (Hl : redis (elapse t w1) !! cache_key_of event_id
               = Some (json_dumps (model_dump e), CACHE_TTL - t)).
  { rewrite elapse_lookup, Hr1, lookup_insert_eq.
    destruct (Z.ltb_spec 0 (CACHE_TTL - t)); [done|lia]. }
  assert (H0 : outcome_at 0 (elapse t w1) = None)
    by exact (quiet_outcome_at 0 w1 Hq1).
  destruct (get_event_hit event_id _ _ _ e (elapse t w1) H0 Hl
              (json_dumps_truthy _) (snapshot_reads_back e)
              (Event_new_model_dump e)) as (w2 & Hg2 & Hc2 & Hr2 & _).
  exists w2. split; [exact Hg2|]. split; [exact Hc2|].
  split; [by rewrite Hr2|].
  rewrite elapse_lookup, Hr2, Hl.
  destruct (Z.ltb_spec 0 (CACHE_TTL - t - (CACHE_TTL - t))); [lia|done].
Qed.

(** X9. The cache is not optional to [get_event]. If the read of the cache
    raises, [get_event] raises the same without asking the collection; and
    if the cache has nothing, a record is found and validates, but the write
    to the cache raises, [get_event] raises the same instead of returning
    the Event, and the cache is left as it was. *)
Theorem get_event_cache_down (event_id msg : string) (w : World) :
  (outcome_at 0 w = Some msg →
   ∃ w', get_event event_id w = (Raise (ServiceError msg), w')
         ∧ calls w' = calls w ++ [RedisGet (cache_key_of event_id)])
  ∧ (∀ w2 doc e,
       outcome_at 0 w = None →
       cached (cache_key_of event_id) w = None →
       store_lookup event_id (after_call (RedisGet (cache_key_of event_id)) w)
       = (Ok (Some doc), w2) →
       Event_new (normalize doc) = Some e →
       outcome_at 0 w2 = Some msg →
       fst (get_event event_id w) = Raise (ServiceError msg)
       ∧ redis (snd (get_event event_id w)) = redis w).
Proof.
  split.
  - intros H0. rewrite get_event_eq, H0. by eexists.
  - intros w2 doc e H0 Hc Hs He H2.
    rewrite get_event_eq, H0, Hc, get_event_miss_eq, Hs, answer_from_eq.
    apply store_lookup_found in Hs as (_ & _ & -> & Hr & _).
    by rewrite He, H2.
Qed.

End CacheOverTime.

(** ** When DELETE tries the string field *)

(** X10. When the removal from the cache goes through, the store deletions
    [delete_event] makes include the one by the string field if and only if
    [ObjectId] rejects the identifier or the deletion by [ObjectId] raised;
    and when the first store deletion goes through, the answer is the
    success message if that one deletion found a document and the 404
    otherwise. *)
Theorem delete_event_fallback_rule (event_id : string) (w : World) :
  outcome_at 0 w = None →
  ∃ rest,
    calls (snd (delete_event event_id w))
    = calls w ++ RedisDelete (cache_key_of event_id) :: rest
    ∧ (DeleteOne (string_filter event_id) ∈ rest ↔
         native_filter event_id = None ∨ ∃ msg, outcome_at 1 w = Some msg)
    ∧ (outcome_at 1 w = None →
       fst (delete_event event_id w)
       = if existsb (matches (deletion_filter event_id)) (events w)
         then Ok (deleted_message event_id)
         else Raise (not_found event_id)).
Proof.
  intros H0. rewrite delete_event_eq, H0.
  set (w1 := set_redis _ _).
  assert (H1 : outcome_at 0 w1 = outcome_at 1 w).
  { unfold w1. by rewrite <- (outcome_at_after_call 0
      (RedisDelete (cache_key_of event_id)) w). }
  assert (Hsnd : ∀ p : Result Z * World,
            snd (match p with
                 | (Ok n, w') =>
                     if n =? 0 then (Raise (not_found event_id), w')
                     else (Ok (deleted_message event_id), w')
                 | (Raise x, w') => (Raise x, w')
                 end) = snd p).
  { intros [[n|x] w']; [|done]. by destruct (n =? 0). }
  unfold deleted_message in Hsnd. rewrite Hsnd.
  rewrite delete_from_store_eq, H1. unfold deletion_filter.
  destruct (native_filter event_id) as [f|] eqn:Hf.
  - pose proof (native_filter_not_string _ _ Hf) as Hne.
    destruct (outcome_at 1 w) as [msg|] eqn:Ho.
    + exists [DeleteOne f; DeleteOne (string_filter event_id)].
      destruct (delete_one_frame (string_filter event_id)
                  (after_call (DeleteOne f) w1)) as [-> _].
      split; [simpl; by rewrite <- !app_assoc|].
      split; [|done]. split; [eauto|]. intros _.
      apply elem_of_cons. right. by apply list_elem_of_singleton.
    + exists [DeleteOne f].
      destruct (delete_one_frame f w1) as [-> _].
      split; [simpl; by rewrite <- !app_assoc|]. split.
      * split.
        -- intros [= Heq]%list_elem_of_singleton. by destruct Hne.
        -- intros [?|[msg ?]]; done.
      * intros _. rewrite delete_one_eq, H1, ?Ho.
        change (events w1) with (events w).
        by destruct (existsb (matches f) (events w)).
  - exists [DeleteOne (string_filter event_id)].
    destruct (delete_one_frame (string_filter event_id) w1) as [-> _].
    split; [simpl; by rewrite <- !app_assoc|]. split.
    + split; [by left|]. intros _. by apply list_elem_of_singleton.
    + intros Ho. rewrite delete_one_eq, H1, ?Ho.
      change (events w1) with (events w).
      by destruct (existsb (matches (string_filter event_id)) (events w)).
Qed.

(** ** seed_db.py *)

Module SeedFacts.
Import Seed.

Lemma matches_all (d : dict) : matches ∅ d = true.
Proof. unfold matches. by rewrite map_fold_empty. Qed.

Lemma filter_none (l : list dict) :
  List.filter (λ d, negb (matches ∅ d)) l = [].
Proof.
  induction l as [|d l IH]; [done|]. simpl. by rewrite matches_all.
Qed.

Lemma draw_quiet (w : World) : quiet w → quiet (snd (draw w)).
Proof.
  unfold quiet, draw. simpl. intros Hq.
  destruct (outcomes w); [done|]. by apply Forall_cons in Hq as [_ ?].
Qed.

Lemma outcome_at_draw (k : nat) (w : World) :
  outcome_at k (snd (draw w)) = outcome_at (S k) w.
Proof. unfold outcome_at, draw. simpl. by destruct (outcomes w). Qed.

Lemma delete_many_eq (f : dict) (w : World) :
  delete_many f w
  = match outcome_at 0 w with
    | Some msg => (Raise (ServiceError msg), snd (draw w))
    | None =>
        (Ok (Z.of_nat (length (List.filter (matches f) (events w)))),
         set_events (List.filter (λ d, negb (matches f d))) (snd (draw w)))
    end.
Proof.
  unfold delete_many, bind, gets, modify, ret. unfold draw at 1.
  by destruct (outcome_at 0 w).
Qed.

Lemma insert_many_eq (docs : list dict) (w : World) :
  insert_many docs w
  = match outcome_at 0 w with
    | Some msg => (Raise (ServiceError msg), snd (draw w))
    | None =>
        let coll := insert_ordered (fst (assign_ids docs (oid_counter w)))
                      (events w) in
        (if snd coll
         then Ok (map (λ d, d !! "_id") (fst (assign_ids docs (oid_counter w))))
         else Raise DuplicateKeyError,
         mkWorld (redis w) (fst coll) (tail (outcomes w)) (utcnow w)
           (snd (assign_ids docs (oid_counter w))) (calls w))
    end.
Proof.
  unfold insert_many. unfold bind at 1. unfold draw at 1.
  destruct (outcome_at 0 w); [done|].
  unfold bind at 1. unfold gets at 1. cbn [oid_counter].
  destruct (assign_ids docs (oid_counter w)) as [docs' n'].
  unfold bind, gets, modify, ret, raise, set_events. cbn [events fst snd].
  destruct (insert_ordered docs' (events w)) as [coll' ok]. cbn [fst snd].
  by destruct ok.
Qed.

Lemma find_all_eq (w : World) :
  find_all w
  = (match outcome_at 0 w with
     | Some msg => Raise (ServiceError msg)
     | None => Ok (events w)
     end, snd (draw w)).
Proof.
  unfold find_all, bind, gets. unfold draw at 1. by destruct (outcome_at 0 w).
Qed.

Lemma insert_ordered_fresh (docs coll : list dict) :
  Forall (λ d, is_Some (d !! "_id")) docs →
  NoDup (map (λ d, d !! "_id") (coll ++ docs)) →
  insert_ordered docs coll = (coll ++ docs, true).
Proof.
  revert coll. induction docs as [|d docs IH]; intros coll Hall Hnd.
  - by rewrite app_nil_r.
  - apply Forall_cons in Hall as [[v Hv] Hall]. simpl. rewrite Hv.
    assert (Hfree : existsb (matches {["_id" := v]}) coll = false).
    { destruct (existsb _ coll) eqn:Hex; [|done]. exfalso.
      apply existsb_exists in Hex as (c & Hc & Hm).
      rewrite matches_singleton in Hm. apply bool_decide_eq_true in Hm.
      rewrite map_app in Hnd. apply NoDup_app in Hnd as (_ & Hdis & _).
      apply (Hdis (Some v)).
      - apply list_elem_of_fmap. exists c. by rewrite list_elem_of_In.
      - simpl. rewrite Hv. by left. }
    rewrite Hfree, IH; [by rewrite <- app_assoc|exact Hall|].
    by rewrite <- app_assoc.
Qed.

Lemma insert_ordered_forall (P : dict → Prop) (docs coll : list dict) :
  Forall P docs → Forall P coll → Forall P (fst (insert_ordered docs coll)).
Proof.
  revert coll. induction docs as [|d docs IH]; intros coll Hd Hc; [done|].
  apply Forall_cons in Hd as [Hd Hds]. simpl.
  destruct (d !! "_id") as [v|].
  - destruct (existsb _ coll); [done|]. apply IH; [done|].
    apply Forall_app. by split; [|constructor].
  - apply IH; [done|]. apply Forall_app. by split; [|constructor].
Qed.

Lemma seeded_events_eq (now : nat → string) (n : N) :
  assign_ids (sample_events now) n
  = (seeded_events now n, (n + 1 + 1 + 1 + 1 + 1)%N).
Proof. reflexivity. Qed.

Lemma seeded_events_ids (now : nat → string) (n : N) :
  map (λ d, d !! "_id") (seeded_events now n)
  = map (λ k, Some (VOid (oid_of_N k)))
      [n; n + 1; n + 1 + 1; n + 1 + 1 + 1; n + 1 + 1 + 1 + 1]%N.
Proof. reflexivity. Qed.

Lemma NoDup_oids (ks : list N) :
  NoDup ks →
  Forall (λ k, (k < 256 ^ 12)%N) ks →
  NoDup (map (λ k, Some (VOid (oid_of_N k))) ks).
Proof.
  induction ks as [|k ks IH]; intros Hnd Hlt; [constructor|].
  apply NoDup_cons in Hnd as [Hk Hnd]. apply Forall_cons in Hlt as [Hklt Hlt].
  simpl. apply NoDup_cons. split; [|by apply IH].
  intros (k' & Heq & Hin)%list_elem_of_fmap.
  apply (f_equal (λ x, match x with Some (VOid o) => o | _ => [] end)) in Heq.
  change (oid_of_N k = oid_of_N k') in Heq.
  apply oid_of_N_inj in Heq; [|done|].
  - by subst.
  - eapply Forall_forall in Hlt; [exact Hlt|exact Hin].
Qed.

Lemma seeded_events_distinct (now : nat → string) (n : N) :
  (n + 5 ≤ 256 ^ 12)%N →
  NoDup (map (λ d, d !! "_id") (seeded_events now n)).
Proof.
  intros Hn. rewrite seeded_events_ids. apply NoDup_oids.
  - repeat (apply NoDup_cons_2;
              [rewrite ?elem_of_cons, ?elem_of_nil; lia|]).
    apply NoDup_nil_2.
  - repeat (apply Forall_cons; split; [lia|]). apply Forall_nil_2.
Qed.

Lemma seeded_events_have_ids (now : nat → string) (n : N) :
  Forall (λ d, is_Some (d !! "_id")) (seeded_events now n).
Proof. repeat (apply Forall_cons; split; [by eexists|]). apply Forall_nil_2. Qed.

Lemma seeded_events_ok (now : nat → string) (n : N) :
  forallb record_ok (seeded_events now n) = true.
Proof. reflexivity. Qed.

(** [seed_database] when every call goes through. *)
Lemma seed_database_quiet (now : nat → string) (w : World) :
  quiet w →
  (oid_counter w + 5 ≤ 256 ^ 12)%N →
  ∃ w', seed_database now w = (Ok (), w')
        ∧ quiet w'
        ∧ events w' = seeded_events now (oid_counter w)
        ∧ redis w' = redis w
        ∧ oid_counter w' = (oid_counter w + 5)%N.
Proof.
  intros Hq Hn. unfold seed_database, try_except.
  unfold bind at 1. rewrite delete_many_eq, (quiet_outcome_at 0 w Hq).
  set (w1 := set_events _ _).
  assert (Hq1 : quiet w1) by exact (draw_quiet w Hq).
  assert (He1 : events w1 = []) by apply filter_none.
  unfold bind at 1. rewrite insert_many_eq, (quiet_outcome_at 0 w1 Hq1).
  change (oid_counter w1) with (oid_counter w).
  rewrite seeded_events_eq, He1. cbn [fst snd].
  rewrite insert_ordered_fresh;
    [|apply seeded_events_have_ids|by apply seeded_events_distinct].
  cbn [fst snd]. set (w2 := mkWorld _ _ _ _ _ _).
  assert (Hq2 : quiet w2).
  { unfold quiet, w2. cbn [outcomes]. unfold quiet in Hq1.
    destruct (outcomes w1); [done|]. by apply Forall_cons in Hq1 as [_ ?]. }
  unfold bind. rewrite find_all_eq, (quiet_outcome_at 0 w2 Hq2).
  eexists. split; [reflexivity|].
  split; [exact (draw_quiet w2 Hq2)|].
  split; [reflexivity|]. split; [reflexivity|]. simpl. lia.
Qed.

(** X11. When no call fails and the generator has room for five more
    identifiers, [seed_database] replaces whatever the collection held by
    the five samples, in their order, each under a fresh [ObjectId], with
    its own ["id"] and with the reading of the clock taken for it when the
    list was built as its ["created_at"]; the records have the persisted
    shape and the cache is not touched. *)
Theorem seed_database_replaces (now : nat → string) (w : World) :
  quiet w →
  (oid_counter w + 5 ≤ 256 ^ 12)%N →
  ∃ w', seed_database now w = (Ok (), w')
        ∧ events w' = seeded_events now (oid_counter w)
        ∧ map (λ d, d !! "id") (events w')
          = map (λ i, Some (VStr i)) ["1"; "2"; "3"; "4"; "5"]
        ∧ NoDup (map (λ d, d !! "_id") (events w'))
        ∧ map (λ d, d !! "created_at") (events w')
          = map (λ k, Some (VStr (now k))) [0; 1; 2; 3; 4]%nat
        ∧ store_ok w' = true
        ∧ redis w' = redis w.
Proof.
  intros Hq Hn.
  destruct (seed_database_quiet now w Hq Hn) as (w' & Hs & _ & He & Hr & _).
  exists w'. split; [exact Hs|]. split; [exact He|].
  unfold store_ok. rewrite He.
  split; [reflexivity|]. split; [by apply seeded_events_distinct|].
  split; [reflexivity|]. split; [apply seeded_events_ok|exact Hr].
Qed.

(** X12. If the clearing of the collection goes through and the insertion
    raises, [seed_database] still returns normally and leaves the collection
    empty: what it held is gone and nothing has taken its place. *)
Theorem seed_database_insert_fails (now : nat → string) (msg : string) (w : World) :
  outcome_at 0 w = None →
  outcome_at 1 w = Some msg →
  ∃ w', seed_database now w = (Ok (), w')
        ∧ events w' = []
        ∧ redis w' = redis w.
Proof.
  intros H0 H1. unfold seed_database, try_except.
  unfold bind at 1. rewrite delete_many_eq, H0.
  set (w1 := set_events _ _).
  assert (H1' : outcome_at 0 w1 = Some msg).
  { unfold w1. by rewrite <- H1, <- (outcome_at_draw 0 w). }
  unfold bind at 1. rewrite insert_many_eq, H1'.
  eexists. split; [reflexivity|]. split; [apply filter_none|reflexivity].
Qed.

Lemma add_custom_event_cases (t de da l c o : string) (w : World) :
  add_custom_event t de da l c o w
  = match outcome_at 0 w with
    | Some msg =>
        (Ok None, after_call (InsertOne (custom_record t de da l c o w)) w)
    | None =>
        if existsb (matches {["_id" := VOid (oid_of_N (oid_counter w))]}) (events w)
        then (Ok None,
              mkWorld (redis w) (events w) (tail (outcomes w)) (utcnow w)
                (oid_counter w + 1)%N
                (calls w ++ [InsertOne (custom_record t de da l c o w)]))
        else (Ok (Some (VOid (oid_of_N (oid_counter w)))),
              mkWorld (redis w)
                (events w ++ [<["_id" := VOid (oid_of_N (oid_counter w))]>
                                (custom_record t de da l c o w)])
                (tail (outcomes w)) (utcnow w) (oid_counter w + 1)%N
                (calls w ++ [InsertOne (custom_record t de da l c o w)]))
    end.
Proof.
  unfold add_custom_event. unfold bind at 1. unfold gets at 1.
  fold (custom_record t de da l c o w). unfold try_except, bind.
  destruct (outcome_at 0 w) as [msg|] eqn:H0.
  - unfold insert_one. unfold bind at 1. by rewrite call_eq, H0.
  - rewrite insert_one_eq by done. by destruct (existsb _ (events w)).
Qed.

(** X13. Neither function of the script raises, whatever its calls meet,
    and neither touches the cache; [add_custom_event] removes no document,
    and answers [None] exactly when it stored nothing. *)
Theorem script_never_raises (now : nat → string) (t de da l c o : string) (w : World) :
  fst (seed_database now w) = Ok ()
  ∧ redis (snd (seed_database now w)) = redis w
  ∧ redis (snd (add_custom_event t de da l c o w)) = redis w
  ∧ ((fst (add_custom_event t de da l c o w) = Ok None
      ∧ events (snd (add_custom_event t de da l c o w)) = events w)
     ∨ (∃ oid d,
          fst (add_custom_event t de da l c o w) = Ok (Some oid)
          ∧ events (snd (add_custom_event t de da l c o w)) = events w ++ [d]
          ∧ d !! "_id" = Some oid)).
Proof.
  split; [|split].
  - unfold seed_database, try_except.
    destruct (bind _ _ w) as [[[]|x] w']; reflexivity.
  - unfold seed_database, try_except.
    unfold bind at 1. rewrite delete_many_eq.
    destruct (outcome_at 0 w); [done|]. set (w1 := set_events _ _).
    unfold bind at 1. rewrite insert_many_eq.
    destruct (outcome_at 0 w1); [done|]. cbv zeta.
    destruct (insert_ordered (fst (assign_ids (sample_events now) (oid_counter w1)))
                (events w1)) as [coll ok].
    cbn [fst snd]. destruct ok; [|done].
    unfold bind. rewrite find_all_eq. by destruct (outcome_at 0 _).
  - rewrite add_custom_event_cases.
    destruct (outcome_at 0 w); [split; [done|by left]|].
    destruct (existsb _ (events w)); [split; [done|by left]|].
    split; [done|]. right. eexists _, _. split; [reflexivity|].
    split; [reflexivity|]. apply lookup_insert_eq.
Qed.

End SeedFacts.

(** ** The script's records through the service *)

Section ScriptThenService.
Context `{Json}.
Import Seed SeedFacts.





(** X15. An event added by the script, no call failing and the generated
    identifier being fresh, is stored without an ["id"] field and with
    ["General"] and ["Unknown"] in place of a category or an organizer left
    blank; [get_event] for the identifier the script printed then returns
    it, under that identifier. *)
Theorem add_custom_event_then_get (t de da l c o : string) (w : World) :
  quiet w →
  existsb (matches {["_id" := VOid (oid_of_N (oid_counter w))]}) (events w) = false →
  cached (cache_key_of (oid_str (oid_of_N (oid_counter w)))) w = None →
  ∃ w1 w2 d,
    add_custom_event t de da l c o w
    = (Ok (Some (VOid (oid_of_N (oid_counter w)))), w1)
    ∧ events w1 = events w ++ [d]
    ∧ d !! "id" = None
    ∧ get_event (oid_str (oid_of_N (oid_counter w))) w1
      = (Ok (mkEvent (oid_str (oid_of_N (oid_counter w))) t de da l
               (Some (if str_truthy c then c else "General"))
               (Some (if str_truthy o then o else "Unknown"))), w2).
Proof.
  intros Hq Hfresh Hc. set (oid := oid_of_N (oid_counter w)) in *.
  pose proof (add_custom_event_cases t de da l c o w) as Ha.
  rewrite (quiet_outcome_at 0 w Hq) in Ha. fold oid in Ha.
  rewrite Hfresh in Ha. set (w1 := mkWorld _ _ _ _ _ _) in Ha.
  set (d := <["_id" := VOid oid]> (custom_record t de da l c o w)) in *.
  assert (Hq1 : quiet w1).
  { unfold quiet, w1. simpl. unfold quiet in Hq.
    destruct (outcomes w); [done|]. by apply Forall_cons in Hq as [_ ?]. }
  destruct (get_event_quiet (oid_str oid) w1 Hq1 Hc) as (w2 & Hg & _).
  assert (Hf : found (oid_str oid) (events w1) = Some d).
  { unfold found, native_filter.
    rewrite ObjectId_parse_str by reflexivity.
    change (events w1) with (events w ++ [d]).
    rewrite (find_app_last _ _ d); [done|exact Hfresh|].
    rewrite matches_singleton. apply bool_decide_eq_true.
    apply lookup_insert_eq. }
  assert (He : ∀ v, Event_new (normalize (<["_id" := v]>
                                            (custom_record t de da l c o w)))
                    = Some (mkEvent (py_str v) t de da l
                              (Some (if str_truthy c then c else "General"))
                              (Some (if str_truthy o then o else "Unknown"))))
    by (intros v; reflexivity).
  unfold get_result in Hg. rewrite Hf in Hg. unfold d in Hg at 1.
  rewrite He in Hg.
  exists w1, w2, d. split; [exact Ha|]. split; [reflexivity|].
  split; [|exact Hg].
  unfold d. by rewrite lookup_insert_ne.
Qed.

End ScriptThenService.

(** ** The further properties at work on the sample data *)

Module MoreWitness.
Import Sample.

Local Abbreviation get := (@get_event codec_json).


(** X3 in the seeded world. *)
Lemma handlers_keep_shapes_witness :
  @cache_ok codec_json (snd (get "1" seeded)) = true
  ∧ store_ok (snd (delete_event "2" seeded)) = true.
Proof.
  split.
  - destruct (@handlers_keep_shapes codec_json "1" workshop seeded
                eq_refl eq_refl) as [[Hc _] _]. exact Hc.
  - destruct (@handlers_keep_shapes codec_json "2" workshop seeded
                eq_refl eq_refl) as (_ & _ & _ & Hs). exact Hs.
Defined.

(** X4 at ["2"]. *)
Lemma delete_then_get_not_found_witness :
  fst (get "2" (snd (delete_event "2" seeded))) = Raise (not_found "2").
Proof.
  destruct (@delete_then_get_not_found codec_json "2" seeded
              (snd (delete_event "2" seeded)) (deleted_message "2"))
    as [Hg _];
    [apply List.Forall_nil|vm_compute; reflexivity|vm_compute; reflexivity|].
  exact Hg.
Defined.

(** X5 for the workshop. *)
Lemma create_then_delete_witness :
  ∃ e w1 w2,
    create_event workshop seeded = (Ok e, w1)
    ∧ delete_event (id e) w1 = (Ok (deleted_message (id e)), w2)
    ∧ events w2 = events seeded.
Proof.
  destruct (create_then_delete workshop seeded (List.Forall_nil _) eq_refl)
    as (e & w1 & w2 & Hc & Hd & He & _).
  exists e, w1, w2. split; [exact Hc|]. split; [exact Hd|exact He].
Defined.

(** The seeded world once the first record has been fetched under its
    native identifier. *)
Definition fetched : World := snd (get "000000000000000000000001" seeded).

(** X6: the first record, cached under its native identifier and deleted
    under ["1"], is gone from the collection and still served. *)
Lemma delete_leaves_other_keys_witness :
  @served_from_cache codec_json "000000000000000000000001" tech_event
    (snd (delete_event "1" fetched))
  ∧ existsb (addressed_by "000000000000000000000001")
      (events (snd (delete_event "1" fetched))) = false.
Proof.
  split; [|vm_compute; reflexivity].
  apply (@delete_leaves_other_keys codec_json "1" "000000000000000000000001"
           tech_event 3600 fetched);
    [discriminate|vm_compute; reflexivity|vm_compute; reflexivity].
Defined.

(** X7 at ["1"]. *)
Lemma refetch_after_expiry_witness :
  ∃ w2, get "1" (elapse CACHE_TTL (snd (get "1" seeded))) = (Ok tech_event, w2).
Proof.
  destruct (@refetch_after_expiry codec_json "1" seeded (snd (get "1" seeded))
              tech_event) as (w2 & log & Hg & _);
    [apply List.Forall_nil|reflexivity|vm_compute; reflexivity|].
  exists w2. exact Hg.
Defined.

(** X8 at ["1"], half an hour after the miss. *)
Lemma hits_do_not_renew_witness :
  ∃ w2, get "1" (elapse 1800 (snd (get "1" seeded))) = (Ok tech_event, w2)
        ∧ redis (elapse 1800 w2) !! "event:1" = None.
Proof.
  destruct (@hits_do_not_renew codec_json "1" seeded (snd (get "1" seeded))
              tech_event 1800) as (w2 & Hg & _ & _ & Hgone);
    [apply List.Forall_nil|reflexivity|vm_compute; reflexivity
    |split; [discriminate|reflexivity]|].
  exists w2. split; [exact Hg|exact Hgone].
Defined.

(** X9 with the cache refusing the read, and refusing the write. *)
Lemma get_event_cache_down_witness :
  fst (get "1" (seeded_with [Some "Connection refused"]))
  = Raise (ServiceError "Connection refused")
  ∧ fst (get "1" (seeded_with [None; None; Some "Connection refused"]))
    = Raise (ServiceError "Connection refused").
Proof.
  split.
  - destruct (@get_event_cache_down codec_json "1" "Connection refused"
                (seeded_with [Some "Connection refused"])) as [Hread _].
    destruct (Hread eq_refl) as (w' & Hg & _). by rewrite Hg.
  - destruct (@get_event_cache_down codec_json "1" "Connection refused"
                (seeded_with [None; None; Some "Connection refused"]))
      as [_ Hwrite].
    destruct (Hwrite
                (snd (store_lookup "1"
                        (after_call (RedisGet "event:1")
                           (seeded_with [None; None; Some "Connection refused"]))))
                tech_stored tech_event) as [Hg _];
      [reflexivity|reflexivity|vm_compute; reflexivity|vm_compute; reflexivity
      |vm_compute; reflexivity|].
    exact Hg.
Defined.

(** X10 at ["1"], which [ObjectId] rejects. *)
Lemma delete_event_fallback_rule_witness :
  ∃ rest,
    calls (snd (delete_event "1" seeded)) = RedisDelete "event:1" :: rest
    ∧ DeleteOne (string_filter "1") ∈ rest.
Proof.
  destruct (delete_event_fallback_rule "1" seeded eq_refl)
    as (rest & Hc & Hiff & _).
  exists rest. split; [exact Hc|]. apply Hiff. left. reflexivity.
Defined.

(** X11: a seeding over the seeded collection; the five records carry five
    different readings of the clock. *)
Lemma seed_database_replaces_witness :
  ∃ w', Seed.seed_database load_clock seeded = (Ok (), w')
        ∧ length (events w') = 5%nat
        ∧ map (λ d, d !! "created_at") (events w')
          = map (λ t, Some (VStr t))
              [ "2025-10-02T09:30:00.004211"; "2025-10-02T09:30:00.004219";
                "2025-10-02T09:30:00.004224"; "2025-10-02T09:30:00.004229";
                "2025-10-02T09:30:00.004233" ].
Proof.
  destruct (SeedFacts.seed_database_replaces load_clock seeded)
    as (w' & Hs & He & _ & _ & Hc & _);
    [apply List.Forall_nil|vm_compute; discriminate|].
  exists w'. split; [exact Hs|]. split; [by rewrite He|exact Hc].
Defined.

(** X12: the insertion of a seeding times out. *)
Lemma seed_database_insert_fails_witness :
  ∃ w', Seed.seed_database load_clock
          (seeded_with [None; Some "timed out"]) = (Ok (), w')
        ∧ events w' = [].
Proof.
  destruct (SeedFacts.seed_database_insert_fails load_clock
              "timed out" (seeded_with [None; Some "timed out"]) eq_refl eq_refl)
    as (w' & Hs & He & _).
  exists w'. split; [exact Hs|exact He].
Defined.


(** X15: an event typed at the prompts, category and organizer left blank. *)
Lemma add_custom_event_then_get_witness :
  ∃ w1 w2 e,
    fst (Seed.add_custom_event "Book Fair" "Used books" "2025-12-01T10:00:00"
           "Pune" EmptyString EmptyString seeded)
    = Ok (Some (VOid (oid_of_N 3)))
    ∧ get "000000000000000000000003" w1 = (Ok e, w2)
    ∧ category e = Some "General"
    ∧ organizer e = Some "Unknown".
Proof.
  destruct (@add_custom_event_then_get codec_json "Book Fair" "Used books"
              "2025-12-01T10:00:00" "Pune" EmptyString EmptyString seeded
              (List.Forall_nil _) eq_refl eq_refl)
    as (w1 & w2 & d & Ha & _ & _ & Hg).
  eexists w1, w2, _. split; [by rewrite Ha|]. split; [exact Hg|].
  split; reflexivity.
Defined.

End MoreWitness.
